(** * Track-list verification (ai-music-step-4-cd.py): a shallow embedding

    The development follows the Python module function by function:
    the two extractors, [normalize_track] and [calculate_track_similarity].

    Conventions of the embedding.
    - A Python [str] is a list of characters ([list ascii]).  The character
      classes of [re] and of the [str] methods are the ASCII ones; titles
      with characters above code 127 are outside the modelled domain.
    - A Python [float] is an exact rational ([Q]).  The constants 0.8, 0.85,
      0.95, 0.6 and the quotients of small integers that the scorer compares
      with them are compared as the rationals they denote; rounding of the
      accumulated sum is not modelled.
    - [difflib.SequenceMatcher(None, a, b).ratio()] is a parameter of the
      scorer; [Difflib.ratio] is an executable instance of it.
    - [print] calls are dropped; the per-track report that the scorer prints
      is returned as a list of records. *)

From Stdlib Require Import Ascii String DecimalString Bool Arith ZArith Lia.
From Stdlib Require Import QArith Qminmax Qround Lqa List.
Import ListNotations.

Set Implicit Arguments.
Open Scope nat_scope.

(** ** Python strings *)

Definition str := list ascii.

(** A string literal of the source. *)
Definition py (x : string) : str := list_ascii_of_string x.

Module Py.

Definition code (c : ascii) : nat := nat_of_ascii c.

Definition in_range (lo hi : nat) (c : ascii) : bool :=
  (lo <=? code c) && (code c <=? hi).

(** [str.isspace] on ASCII: TAB, LF, VT, FF, CR, FS, GS, RS, US, space.
    [\s] of a [str] pattern is the same class. *)
Definition isspace (c : ascii) : bool := in_range 9 13 c || in_range 28 32 c.
Definition isdigit (c : ascii) : bool := in_range 48 57 c.
Definition isupper (c : ascii) : bool := in_range 65 90 c.
Definition islower (c : ascii) : bool := in_range 97 122 c.

(** [\w] on ASCII: letters, digits and the underscore. *)
Definition isword (c : ascii) : bool :=
  isdigit c || isupper c || islower c || (c =? "_")%char.

Definition lower_char (c : ascii) : ascii :=
  if isupper c then ascii_of_nat (code c + 32) else c.

(** [s.lower()] *)
Definition lower (s : str) : str := map lower_char s.

(** [s.startswith(p)] *)
Fixpoint startswith (s p : str) : bool :=
  match p, s with
  | [], _ => true
  | a :: p', b :: s' => (a =? b)%char && startswith s' p'
  | _ :: _, [] => false
  end.

(** [s.endswith(p)] *)
Definition endswith (s p : str) : bool := startswith (rev s) (rev p).

(** [x in s] *)
Fixpoint contains (x s : str) : bool :=
  startswith s x ||
  match s with
  | [] => false
  | _ :: s' => contains x s'
  end.

Definition eqb (a b : str) : bool :=
  if list_eq_dec ascii_dec a b then true else false.

(** [t in l] for a list of strings. *)
Definition mem (t : str) (l : list str) : bool := existsb (eqb t) l.

(** [s.replace(old, new)] for a non-empty [old]: occurrences are replaced
    from the left and do not overlap.  [skip] counts the characters of the
    occurrence just replaced that are still to be passed. *)
Fixpoint replace_from (old new : str) (skip : nat) (s : str) : str :=
  match s with
  | [] => []
  | c :: s' =>
      match skip with
      | S n => replace_from old new n s'
      | O =>
          if startswith s old
          then new ++ replace_from old new (pred (length old)) s'
          else c :: replace_from old new 0 s'
      end
  end.

Definition replace (old new s : str) : str := replace_from old new 0 s.

Fixpoint dropwhile (p : ascii -> bool) (s : str) : str :=
  match s with
  | c :: s' => if p c then dropwhile p s' else s
  | [] => []
  end.

Definition lstrip (s : str) : str := dropwhile isspace s.
Definition rstrip (s : str) : str := rev (dropwhile isspace (rev s)).

(** [s.strip()] *)
Definition strip (s : str) : str := rstrip (lstrip s).

(** [s.rstrip(',')] and the like *)
Definition rstrip_char (ch : ascii) (s : str) : str :=
  rev (dropwhile (Ascii.eqb ch) (rev s)).

(** [s[:-1]] *)
Definition drop_last (s : str) : str := removelast s.

(** [s[1:-1]] *)
Definition drop_ends (s : str) : str := removelast (tl s).

(** [s.split()]: the maximal runs of non-whitespace characters. [cur] is
    the word being read, reversed. *)
Fixpoint split_from (cur : str) (s : str) : list str :=
  match s with
  | [] => match cur with [] => [] | _ :: _ => [rev cur] end
  | c :: s' =>
      if isspace c
      then match cur with
           | [] => split_from [] s'
           | _ :: _ => rev cur :: split_from [] s'
           end
      else split_from (c :: cur) s'
  end.

Definition split (s : str) : list str := split_from [] s.

(** [s.split(sep)] for a non-empty separator: every piece is kept, the
    empty ones too. *)
Fixpoint split_on_from (sep : str) (skip : nat) (cur : str) (s : str)
  : list str :=
  match s with
  | [] => [rev cur]
  | c :: s' =>
      match skip with
      | S n => split_on_from sep n cur s'
      | O =>
          if startswith s sep
          then rev cur :: split_on_from sep (pred (length sep)) [] s'
          else split_on_from sep 0 (c :: cur) s'
      end
  end.

Definition split_on (sep s : str) : list str := split_on_from sep 0 [] s.

(** [str(n)] for a non-negative integer, as an f-string prints it. *)
Definition of_nat (n : nat) : str :=
  list_ascii_of_string (NilEmpty.string_of_uint (Nat.to_uint n)).

(** [set(l)] keeps one copy of every element; only its size and its
    members are observed. *)
Definition set (l : list str) : list str := nodup (list_eq_dec ascii_dec) l.

(** [a.intersection(b)] *)
Definition intersection (a b : list str) : list str :=
  filter (fun w => mem w b) a.

End Py.

(** ** Regular expressions

    The fragment of [re] that the module uses.  Every repetition in the
    source is over a single character class, so [Rep] takes a class.  The
    matcher backtracks in the order of [re]: the first alternative first,
    a greedy repetition longest first, a lazy one shortest first.  None of
    the patterns that the module hands to [finditer], [findall] and [sub]
    matches the empty string ([patterns_consume] below), so every match
    found there consumes a character and the next search starts at its
    end. *)

Module Re.

Inductive re : Type :=
| Eps                                       (* the empty pattern *)
| Chr (p : ascii -> bool)                   (* one character of a class *)
| Rep (greedy : bool) (p : ascii -> bool)   (* [p*] and [p*?] *)
| Seq (r1 r2 : re)
| Alt (r1 r2 : re)                          (* [r1|r2] *)
| Grp (r : re)                              (* a capturing group *)
| Eos.                                      (* [$] *)

Definition newline : ascii := "010"%char.

(** Character classes. *)
Definition ch (c : ascii) : ascii -> bool := Ascii.eqb c.
Definition is_ci (c : ascii) : ascii -> bool :=
  fun x => Ascii.eqb (Py.lower_char c) (Py.lower_char x).
Definition any : ascii -> bool := fun _ => true.        (* [.] with DOTALL *)
Definition none_of (l : str) : ascii -> bool :=
  fun x => negb (existsb (Ascii.eqb x) l).
Definition one_of (l : str) : ascii -> bool :=
  fun x => existsb (Ascii.eqb x) l.

(** Derived forms. *)
Fixpoint Lit (s : str) : re :=
  match s with
  | [] => Eps
  | c :: s' => Seq (Chr (ch c)) (Lit s')
  end.
Fixpoint Lit_ci (s : str) : re :=
  match s with
  | [] => Eps
  | c :: s' => Seq (Chr (is_ci c)) (Lit_ci s')
  end.
Definition Star (p : ascii -> bool) : re := Rep true p.
Definition Lazy (p : ascii -> bool) : re := Rep false p.
Definition Plus (p : ascii -> bool) : re := Seq (Chr p) (Rep true p).
Definition LazyPlus (p : ascii -> bool) : re := Seq (Chr p) (Rep false p).
Definition Opt (r : re) : re := Alt r Eps.

Section Matcher.
Variable R : Type.

(** [p*] followed by [k]: the longest run first. *)
Fixpoint rep_greedy (p : ascii -> bool) (s : str) (k : str -> option R)
  : option R :=
  match s with
  | c :: s' =>
      if p c
      then match rep_greedy p s' k with
           | Some x => Some x
           | None => k s
           end
      else k s
  | [] => k s
  end.

(** [p*?] followed by [k]: the shortest run first. *)
Fixpoint rep_lazy (p : ascii -> bool) (s : str) (k : str -> option R)
  : option R :=
  match k s with
  | Some x => Some x
  | None =>
      match s with
      | c :: s' => if p c then rep_lazy p s' k else None
      | [] => None
      end
  end.

(** [rmatch r s caps k]: match [r] at the head of [s], then hand the
    rest of the string and the groups captured so far to [k]. *)
Fixpoint rmatch (r : re) (s : str) (caps : list str)
         (k : str -> list str -> option R) : option R :=
  match r with
  | Eps => k s caps
  | Chr p =>
      match s with
      | c :: s' => if p c then k s' caps else None
      | [] => None
      end
  | Rep g p =>
      (if g then rep_greedy else rep_lazy) p s (fun s' => k s' caps)
  | Seq r1 r2 =>
      rmatch r1 s caps (fun s' caps' => rmatch r2 s' caps' k)
  | Alt r1 r2 =>
      match rmatch r1 s caps k with
      | Some x => Some x
      | None => rmatch r2 s caps k
      end
  | Grp r1 =>
      rmatch r1 s caps
        (fun s' caps' =>
           k s' (caps' ++ [firstn (length s - length s') s]))
  | Eos =>
      match s with
      | [] => k s caps
      | [c] => if Ascii.eqb c newline then k s caps else None
      | _ :: _ :: _ => None
      end
  end.
End Matcher.

(** The pattern can match the empty string. *)
Fixpoint nullable (r : re) : bool :=
  match r with
  | Eps | Rep _ _ | Eos => true
  | Chr _ => false
  | Seq r1 r2 => nullable r1 && nullable r2
  | Alt r1 r2 => nullable r1 || nullable r2
  | Grp r1 => nullable r1
  end.

(** A match at the head of [s]: the number of characters consumed and the
    groups. *)
Definition match_here (r : re) (s : str) : option (nat * list str) :=
  rmatch r s [] (fun s' caps => Some (length s - length s', caps)).

(** A match object: [group(0)] and the capturing groups. *)
Record mobj : Type := Match { group0 : str; groups : list str }.

(** [m.group(n)] for [n >= 1]. *)
Definition group (m : mobj) (n : nat) : str := nth (pred n) (groups m) [].

(** [re.match(r, s)] *)
Definition match_ (r : re) (s : str) : option mobj :=
  match match_here r s with
  | Some (n, caps) => Some (Match (firstn n s) caps)
  | None => None
  end.

(** [re.search(r, s)]: the leftmost match. *)
Fixpoint search (r : re) (s : str) : option mobj :=
  match match_ r s with
  | Some m => Some m
  | None =>
      match s with
      | [] => None
      | _ :: s' => search r s'
      end
  end.

(** [re.finditer(r, s)]: the matches from left to right, each search
    starting where the previous match ended. *)
Fixpoint finditer_from (r : re) (skip : nat) (s : str) : list mobj :=
  match s with
  | [] => []
  | _ :: s' =>
      match skip with
      | S n => finditer_from r n s'
      | O =>
          match match_here r s with
          | Some (S n, caps) =>
              Match (firstn (S n) s) caps :: finditer_from r n s'
          | _ => finditer_from r 0 s'
          end
      end
  end.

Definition finditer (r : re) (s : str) : list mobj := finditer_from r 0 s.

(** [re.findall(r, s)] for a pattern with groups: the first group of every
    match.  (With several groups Python returns tuples and the module
    takes their first component.) *)
Definition findall1 (r : re) (s : str) : list str :=
  map (fun m => group m 1) (finditer r s).

(** [re.sub(r, repl, s)] for a replacement without group references. *)
Fixpoint sub_from (r : re) (repl : str) (skip : nat) (s : str) : str :=
  match s with
  | [] => []
  | c :: s' =>
      match skip with
      | S n => sub_from r repl n s'
      | O =>
          match match_here r s with
          | Some (S n, _) => repl ++ sub_from r repl n s'
          | _ => c :: sub_from r repl 0 s'
          end
      end
  end.

Definition sub (r : re) (repl s : str) : str := sub_from r repl 0 s.

End Re.

(** ** The patterns of the module *)

(** In the comments of this module the double quote of a source pattern is
    written [\x22]. *)

Module Pat.
Import Re.

Definition dq : ascii := "034"%char.
Definition quoted (s : str) : str := dq :: s ++ [dq].

(** A sequence of patterns. *)
Definition cat (l : list re) : re := fold_right Seq Eps l.

Definition sp := Py.isspace.
Definition digit := Py.isdigit.
Definition word := Py.isword.

(** [\x22number\x22:\s*\d+,\s*\x22title\x22:\s*] *)
Definition number_title : list re :=
  [ Lit (quoted (py "number") ++ py ":"); Star sp; Plus digit; Lit (py ",");
    Star sp; Lit (quoted (py "title") ++ py ":"); Star sp ].

(** [\x22([^\x22]+)\x22] *)
Definition quoted_title : list re :=
  [ Lit [dq]; Grp (Plus (none_of [dq])); Lit [dq] ].

(** [Contents:\s*-\s*tracks:\s*\[(.*?)\]], DOTALL *)
Definition content_section_re : re :=
  cat [ Lit (py "Contents:"); Star sp; Lit (py "-"); Star sp;
        Lit (py "tracks:"); Star sp; Lit (py "["); Grp (Lazy any);
        Lit (py "]") ].

(** [\{\s*\x22number\x22:\s*\d+,\s*\x22title\x22:\s*\x22([^\x22]+)\x22] *)
Definition track_object_re : re :=
  cat ([ Lit (py "{"); Star sp ] ++ number_title ++ quoted_title).

(** [\x22title\x22:\s*([^,\n]+)] *)
Definition title_value_re : re :=
  cat [ Lit (quoted (py "title") ++ py ":"); Star sp;
        Grp (Plus (none_of [","%char; newline])) ].

(** The cascade of [track_patterns], in the order of the source. *)
Definition track_patterns : list re :=
  [ cat (number_title ++ quoted_title);
    cat (number_title ++
         [ Grp (Plus (none_of [","%char; newline])); Lit (py ",") ]);
    cat ([ Lit (quoted (py "title") ++ py ":"); Star sp ] ++ quoted_title ++
         [ Lazy (none_of (py "}")); Lit (quoted (py "duration") ++ py ":");
           Star sp;
           Grp (cat [ Plus digit; Lit (py ":"); Plus digit ]) ]);
    cat ([ Lit (quoted (py "title") ++ py ":"); Star sp ] ++ quoted_title) ].

(** [(?:(?:\n\s*\w+:)|$)] *)
Definition next_field_or_end : re :=
  Alt (cat [ Lit [newline]; Star sp; Plus word; Lit (py ":") ]) Eos.

(** [(?:Track\s+list(?:ing)?|Contents|Tracks):\s*(.*?)(?:(?:\n\s*\w+:)|$)],
    DOTALL and IGNORECASE *)
Definition track_section_re : re :=
  cat [ Alt (cat [ Lit_ci (py "Track"); Plus sp; Lit_ci (py "list");
                   Opt (Lit_ci (py "ing")) ])
            (Alt (Lit_ci (py "Contents")) (Lit_ci (py "Tracks")));
        Lit (py ":"); Star sp; Grp (Lazy any); next_field_or_end ].

(** Line 78: an ordinal [\d+[\.\)]] or a double quote, either followed by
    optional white space; the group [([^\x22\n\(]+)]; then one of [\x22],
    [\n], [\(] and [$]. *)
Definition listed_track_re : re :=
  cat [ Alt (cat [ Plus digit; Chr (one_of (py ".)")); Star sp ])
            (cat [ Lit [dq]; Star sp ]);
        Grp (Plus (none_of [dq; newline; "("%char]));
        Alt (Lit [dq]) (Alt (Lit [newline]) (Alt (Lit (py "(")) Eos)) ].

(** [\(\d+:\d+\)] and [\(\d+[:\.]\d+\)] *)
Definition duration (seps : str) : list re :=
  [ Lit (py "("); Plus digit; Chr (one_of seps); Plus digit; Lit (py ")") ].

(** [([^,;]+)\s*\(\d+:\d+\)] *)
Definition timed_track_re : re :=
  cat ([ Grp (Plus (none_of (py ",;"))); Star sp ] ++ duration (py ":")).

(** [OCLC Number: {oclc_number}.*?(?:(?:Record \d+:|-{40})|$)], DOTALL.
    The number is spliced into the pattern; a catalogue number is taken to
    hold no character that [re] reads as an operator. *)
Definition oclc_section_re (oclc_number : str) : re :=
  cat [ Lit (py "OCLC Number: "); Lit oclc_number; Lazy any;
        Alt (Alt (cat [ Lit (py "Record "); Plus digit; Lit (py ":") ])
                 (Lit (py "----------------------------------------")))
            Eos ].

(** [(?:(?:\n\s*[A-Z][a-z]+:)|$)] *)
Definition next_label_or_end : re :=
  Alt (cat [ Lit [newline]; Star sp; Chr Py.isupper; Plus Py.islower;
             Lit (py ":") ])
      Eos.

(** The two [content_patterns], DOTALL. *)
Definition content_patterns : list re :=
  [ cat [ Lit (py "Content:"); Star sp; Grp (Lazy any); next_label_or_end ];
    cat [ Lit (py "Description:"); Lazy any; Lit (py "Content:"); Star sp;
          Grp (Lazy any); next_label_or_end ] ].

(** [\s*/\s*[^(]+] *)
Definition credit_re : re :=
  cat [ Star sp; Lit (py "/"); Star sp; Plus (none_of (py "(")) ].

(** [\s*\(\d+[:\.]\d+\)\.?$] *)
Definition trailing_duration_re : re :=
  cat ([ Star sp ] ++ duration (py ":.") ++ [ Opt (Lit (py ".")); Eos ]).

(** [\s*\([^)]*\)$] *)
Definition trailing_paren_re : re :=
  cat [ Star sp; Lit (py "("); Star (none_of (py ")")); Lit (py ")"); Eos ].

(** [([^-\(\)]+?)\s*\(\d+[:\.]\d+\)] *)
Definition timed_run_re : re :=
  cat ([ Grp (LazyPlus (none_of (py "-()"))); Star sp ] ++
       duration (py ":.")).

(** [\s*\(with [^)]+\)] *)
Definition with_paren_re : re :=
  cat [ Star sp; Lit (py "(with "); Plus (none_of (py ")")); Lit (py ")") ].

(** [\s*\([^)]+\)] *)
Definition paren_re : re :=
  cat [ Star sp; Lit (py "("); Plus (none_of (py ")")); Lit (py ")") ].

(** [[^\w\s]] *)
Definition punct (c : ascii) : bool := negb (word c || sp c).
Definition punct_re : re := Chr punct.

(** [\s+] *)
Definition spaces_re : re := Plus sp.

(** [^(?:Part|Movement)], IGNORECASE, under [re.match] *)
Definition part_prefix_re : re :=
  Alt (Lit_ci (py "Part")) (Lit_ci (py "Movement")).

(** [^(?:Part|Movement)\s*(\d+|[IVX]+)$], IGNORECASE, under [re.match] *)
Definition part_re : re :=
  cat [ part_prefix_re; Star sp;
        Grp (Alt (Plus digit) (Plus (one_of (py "IVXivx")))); Eos ].

(** [\s+with \d+ parts] *)
Definition with_parts_re : re :=
  cat [ Plus sp; Lit (py "with "); Plus digit; Lit (py " parts") ].

End Pat.

(** ** The extractors *)

(** The truth value of a string or of a list: it is not empty. *)
Definition truthy (A : Type) (l : list A) : bool :=
  match l with [] => false | _ :: _ => true end.

(** [x.lower() not in ["not visible", "n/a", "unavailable", "none"]] *)
Definition not_sentinel (x : str) : bool :=
  negb (Py.mem (Py.lower x)
          (map py ["not visible"; "n/a"; "unavailable"; "none"]%string)).

(** The loop body shared by the fall-back stages:
    [if cleaned and cleaned.lower() not in [...]:
       if cleaned not in tracks: tracks.append(cleaned)] *)
Definition append_new (tracks : list str) (cleaned : str) : list str :=
  if truthy cleaned && not_sentinel cleaned
  then if negb (Py.mem cleaned tracks) then tracks ++ [cleaned] else tracks
  else tracks.

(** Lines 26-50: the [Contents: - tracks: [...]] section. *)
Definition structured_tracks (metadata_str : str) : list str :=
  match Re.search Pat.content_section_re metadata_str with
  | None => []
  | Some content_section =>
      let tracks_content := Re.group content_section 1 in
      let tracks :=
        fold_left
          (fun tracks m =>
             let title := Re.group m 1 in
             if truthy title && truthy (Py.strip title) && not_sentinel title
             then tracks ++ [Py.strip title]
             else tracks)
          (Re.finditer Pat.track_object_re tracks_content) [] in
      if truthy tracks then tracks
      else
        fold_left
          (fun tracks m =>
             let title_text := Py.strip (Re.group m 1) in
             let title_text :=
               if Py.startswith title_text [Pat.dq] &&
                  Py.endswith title_text [Pat.dq]
               then Py.drop_ends title_text else title_text in
             let title_text :=
               if Py.endswith title_text (py ",")
               then Py.drop_last title_text else title_text in
             if truthy title_text && not_sentinel title_text
             then tracks ++ [title_text]
             else tracks)
          (Re.finditer Pat.title_value_re tracks_content) tracks
  end.

(** Lines 53-70: the cascade of looser patterns over the whole text. *)
Definition cascade_tracks (metadata_str : str) (tracks : list str)
  : list str :=
  fold_left
    (fun tracks pattern =>
       if length tracks <? 3
       then fold_left
              (fun tracks title =>
                 append_new tracks (Py.rstrip_char "," (Py.strip title)))
              (Re.findall1 pattern metadata_str) tracks
       else tracks)
    Pat.track_patterns tracks.

(** Lines 73-85: the labelled free-text sections. *)
Definition unstructured_tracks (metadata_str : str) (tracks : list str)
  : list str :=
  fold_left
    (fun tracks section =>
       let potential_tracks :=
         Re.findall1 Pat.listed_track_re section ++
         Re.findall1 Pat.timed_track_re section in
       fold_left (fun tracks track => append_new tracks (Py.strip track))
                 potential_tracks tracks)
    (Re.findall1 Pat.track_section_re metadata_str) tracks.

(** Lines 88-91 *)
Definition is_field_name (t : str) : bool :=
  Py.mem (Py.lower t)
    (map py ["number"; "title"; "titletransliteration"; "composer";
             "lyricist"; "duration"; "isrc"; "not applicable";
             "not visible"]%string).

(** Lines 94-98 *)
Definition looks_like_note (t : str) : bool :=
  Py.contains (py "note") (Py.lower t) ||
  Py.startswith (Py.lower t) (py "contains") ||
  (8 <? length (Py.split t)).

Definition extract_tracks_from_metadata (metadata_str : str) : list str :=
  let tracks := structured_tracks metadata_str in
  let tracks :=
    if length tracks <? 3 then cascade_tracks metadata_str tracks
    else tracks in
  let tracks :=
    if length tracks <? 3 then unstructured_tracks metadata_str tracks
    else tracks in
  let tracks := filter (fun t => negb (is_field_name t)) tracks in
  filter (fun t => negb (looks_like_note t)) tracks.

(** [if s.endswith('.'): s = s[:-1].strip()] *)
Definition drop_final_period (s : str) : str :=
  if Py.endswith s (py ".") then Py.strip (Py.drop_last s) else s.

(** Lines 119-124: the text of the first content pattern that matches. *)
Definition content_text_of (section_text : str) : option str :=
  fold_left
    (fun found pattern =>
       match found with
       | Some _ => found
       | None =>
           match Re.search pattern section_text with
           | Some content_match =>
               Some (Py.strip (Re.group content_match 1))
           | None => None
           end
       end)
    Pat.content_patterns None.

(** Lines 127-138: the [" -- "] convention. *)
Definition dashed_tracks (content_text : str) : list str :=
  fold_left
    (fun tracks part =>
       let track_name := drop_final_period (Py.strip part) in
       let track_name := Re.sub Pat.credit_re [] track_name in
       let track_name := Re.sub Pat.trailing_duration_re [] track_name in
       let track_name := Re.sub Pat.trailing_paren_re [] track_name in
       if truthy track_name && not_sentinel track_name
       then tracks ++ [Py.strip track_name]
       else tracks)
    (Py.split_on (py " -- ") content_text) [].

(** Lines 140-151: newline, then semicolon, then comma. *)
Definition delimited_tracks (content_text : str) : list str :=
  fold_left
    (fun tracks delimiter =>
       if Py.contains delimiter content_text && negb (truthy tracks)
       then fold_left
              (fun tracks part =>
                 let clean_part := drop_final_period (Py.strip part) in
                 let clean_part := Re.sub Pat.credit_re [] clean_part in
                 let clean_part :=
                   Re.sub Pat.trailing_duration_re [] clean_part in
                 if truthy clean_part && not_sentinel clean_part
                 then tracks ++ [clean_part]
                 else tracks)
              (Py.split_on delimiter content_text) tracks
       else tracks)
    [[Re.newline]; py ";"; py ","] [].

(** Lines 126-151: the tracks of the content field. *)
Definition content_tracks (section_text : str) : list str :=
  match content_text_of section_text with
  | Some content_text =>
      if truthy content_text
      then if Py.contains (py " -- ") content_text
           then dashed_tracks content_text
           else delimited_tracks content_text
      else []
  | None => []
  end.

(** Lines 153-160: the [<title> (mm:ss)] runs of the whole section. *)
Definition timed_runs (section_text : str) : list str :=
  fold_left (fun tracks m => append_new tracks (Py.strip m))
            (Re.findall1 Pat.timed_run_re section_text) [].

Definition extract_tracks_from_oclc (oclc_results oclc_number : str)
  : list str :=
  match Re.search (Pat.oclc_section_re oclc_number) oclc_results with
  | Some oclc_section =>
      let section_text := Re.group0 oclc_section in
      let tracks := content_tracks section_text in
      if negb (truthy tracks) then timed_runs section_text else tracks
  | None => []
  end.

(** ** The normaliser *)

Definition normalize_track (track : str) : str :=
  let norm := Py.lower track in
  let norm :=
    if Py.startswith norm (py "the ")
    then skipn 4 norm ++ py ", the" else norm in
  let norm := Py.replace (py " is a ") (py " is ") norm in
  let norm := Py.replace (py " is the ") (py " is ") norm in
  let norm := Py.replace (py "(stripped)") [] norm in
  let norm := Py.replace (py "(edit)") [] norm in
  let norm := Py.replace (py "stripped") [] norm in
  let norm := Py.replace (py "edit") [] norm in
  let norm := Re.sub Pat.with_paren_re [] norm in
  let norm := Re.sub Pat.paren_re [] norm in
  let norm := Re.sub Pat.punct_re [] norm in
  let norm := Re.sub Pat.spaces_re (py " ") norm in
  Py.strip norm.

(** ** The similarity ratio *)

(** Modelled from the spec: the general string-similarity ratio, "twice the
    number of matching characters ... divided by the combined length of both
    strings (the classic ratio used by longest-matching-block sequence
    comparison)".  It is [difflib.SequenceMatcher(None, a, b).ratio()] of the
    Python library, which is not part of the repository: the longest common
    block is found, the pieces to its left and to its right are matched in
    the same way, and the sizes of the blocks are added up. *)

Module Difflib.

(** The automatic junk heuristic: in a second sequence of 200 elements or
    more, an element that occurs more than [len(b)//100 + 1] times starts
    no block. *)
Definition popular (b : str) (c : ascii) : bool :=
  (200 <=? length b) && (length b / 100 + 1 <? count_occ ascii_dec b c).

Section Blocks.
Variable pop : ascii -> bool.

(** One row of [j2len]: the length of the common run that ends at
    [(i, j)], for the element [x = a[i]] and every [j].  [prev] is the
    previous row shifted by one place. *)
Fixpoint next_row (x : ascii) (b : str) (prev : list nat) : list nat :=
  match b with
  | [] => []
  | y :: b' =>
      (if Ascii.eqb x y && negb (pop y) then S (hd 0 prev) else 0)
        :: next_row x b' (tl prev)
  end.

(** [if k > bestsize: besti, bestj, bestsize = i-k+1, j-k+1, k] along a
    row. *)
Fixpoint scan_row (i j : nat) (row : list nat) (best : nat * nat * nat)
  : nat * nat * nat :=
  match row with
  | [] => best
  | k :: row' =>
      scan_row i (S j) row'
        (if snd best <? k then (i + 1 - k, j + 1 - k, k) else best)
  end.

Fixpoint longest_run (i : nat) (a b : str) (prev : list nat)
         (best : nat * nat * nat) : nat * nat * nat :=
  match a with
  | [] => best
  | x :: a' =>
      let row := next_row x b (0 :: prev) in
      longest_run (S i) a' b row (scan_row i 0 row best)
  end.

(** The block is extended over equal elements to the left ... *)
Fixpoint extend_left (fuel : nat) (a b : str) (best : nat * nat * nat)
  : nat * nat * nat :=
  match fuel with
  | O => best
  | S fuel' =>
      let '(i, j, k) := best in
      if (0 <? i) && (0 <? j) &&
         Ascii.eqb (nth (i - 1) a zero) (nth (j - 1) b zero)
      then extend_left fuel' a b (i - 1, j - 1, k + 1)
      else best
  end.

(** ... and to the right. *)
Fixpoint extend_right (fuel : nat) (a b : str) (best : nat * nat * nat)
  : nat * nat * nat :=
  match fuel with
  | O => best
  | S fuel' =>
      let '(i, j, k) := best in
      if (i + k <? length a) && (j + k <? length b) &&
         Ascii.eqb (nth (i + k) a zero) (nth (j + k) b zero)
      then extend_right fuel' a b (i, j, k + 1)
      else best
  end.

(** [find_longest_match] on the slices [a] and [b]: the longest block,
    the earliest in [a] and then in [b] among the longest.  With no junk
    predicate the two junk loops of the library do nothing. *)
Definition find_longest_match (a b : str) : nat * nat * nat :=
  let best := longest_run 0 a b [] (0, 0, 0) in
  let best := extend_left (fst (fst best)) a b best in
  extend_right (length a) a b best.

(** The sum of the sizes of [get_matching_blocks]. *)
Fixpoint matches_from (fuel : nat) (a b : str) : nat :=
  match fuel with
  | O => 0
  | S fuel' =>
      let '(i, j, k) := find_longest_match a b in
      if k =? 0 then 0
      else
        k
        + (if (0 <? i) && (0 <? j)
           then matches_from fuel' (firstn i a) (firstn j b) else 0)
        + (if (i + k <? length a) && (j + k <? length b)
           then matches_from fuel' (skipn (i + k) a) (skipn (j + k) b)
           else 0)
  end.
End Blocks.

(** Every block removes an element of [a], so [length a] rounds are enough
    ([matches_fuel] below). *)
Definition matches (a b : str) : nat :=
  matches_from (popular b) (length a) a b.

(** [2.0 * matches / length if length else 1.0] *)
Definition ratio (a b : str) : Q :=
  let total := length a + length b in
  if total =? 0 then 1%Q
  else (2 * inject_Z (Z.of_nat (matches a b))
        / inject_Z (Z.of_nat total))%Q.

End Difflib.

(** ** The scorer *)

(** An [int] used as a [float]. *)
Definition float_of_nat (n : nat) : Q := inject_Z (Z.of_nat n).

(** [int(x)]: truncation towards zero. *)
Definition int (x : Q) : Z := if Qle_bool 0 x then Qfloor x else Qceiling x.

(** [x < y] on floats. *)
Definition Qltb (x y : Q) : bool := negb (Qle_bool y x).

(** [enumerate(l)] *)
Definition enumerate (A : Type) (l : list A) : list (nat * A) :=
  combine (seq 0 (length l)) l.

(** [multi_part_groups]: a dictionary from a main title to the list of its
    parts, in insertion order. *)
Definition groups_dict : Type := list (str * list str).

(** [main_title in multi_part_groups] *)
Definition has_key (main_title : str) (groups : groups_dict) : bool :=
  existsb (fun kv => Py.eqb main_title (fst kv)) groups.

(** [if main_title not in groups: groups[main_title] = []] followed by
    [groups[main_title].append(track)] *)
Fixpoint add_part (main_title track : str) (groups : groups_dict)
  : groups_dict :=
  match groups with
  | [] => [(main_title, [track])]
  | (key, parts) :: groups' =>
      if Py.eqb main_title key
      then (key, parts ++ [track]) :: groups'
      else (key, parts) :: add_part main_title track groups'
  end.

Definition matches_re (r : Re.re) (s : str) : bool :=
  match Re.match_ r s with Some _ => true | None => false end.

(** Lines 185-193 *)
Definition multi_part_groups (metadata_tracks : list str) : groups_dict :=
  fold_left
    (fun groups it =>
       let '(i, track) := it in
       if matches_re Pat.part_re track
       then if (0 <? i) &&
               negb (matches_re Pat.part_prefix_re
                       (nth (i - 1) metadata_tracks []))
            then add_part (nth (i - 1) metadata_tracks []) track groups
            else groups
       else groups)
    (enumerate metadata_tracks) [].

(** [f"{main_title} (with {len(parts)} parts)"] *)
Definition synthetic_entry (main_title : str) (parts : list str) : str :=
  main_title ++ py " (with " ++ Py.of_nat (length parts) ++ py " parts)".

(** Lines 195-210: the consolidated list. *)
Definition processed_metadata_tracks (metadata_tracks : list str)
  : list str :=
  let groups := multi_part_groups metadata_tracks in
  let standalone :=
    filter
      (fun track =>
         negb (has_key track groups) &&
         negb (existsb (fun kv => Py.mem track (snd kv)) groups))
      metadata_tracks in
  let processed :=
    standalone ++ map (fun kv => synthetic_entry (fst kv) (snd kv)) groups in
  if truthy processed then processed else metadata_tracks.

(** The word sets of a pair of normalised titles: [len(common_words)] and
    [shorter_length]. *)
Definition common_count (meta_track oclc_track : str) : nat :=
  length (Py.intersection (Py.set (Py.split meta_track))
                          (Py.set (Py.split oclc_track))).

Definition shorter_length (meta_track oclc_track : str) : nat :=
  min (length (Py.set (Py.split meta_track)))
      (length (Py.set (Py.split oclc_track))).

(** Line 246: the condition of the word-overlap rule. *)
Definition word_overlap_fires (meta_track oclc_track : str) : bool :=
  (0 <? shorter_length meta_track oclc_track) &&
  (Z.max 1 (int (float_of_nat (shorter_length meta_track oclc_track)
                 * (6 # 10))%Q)
   <=? Z.of_nat (common_count meta_track oclc_track))%Z.

(** What the best-match search keeps for one metadata track. *)
Record best : Type := Best {
  best_match : Q;
  best_match_index : Z;
  is_substring_match : bool;
  is_part_match : bool
}.

(** The per-track line of the report. *)
Inductive mark : Type := Tick | TickMultiPart | TickSubstring | Cross.

Record match_info : Type := MatchInfo {
  position : nat;
  orig_track : str;
  symbol : mark;
  counterpart : option str;
  score : Q
}.

(** Line 227: [if "with" in meta_track and "parts" in meta_track], the
    test that takes a normalised title for a synthetic multi-part entry. *)
Definition reads_as_multi_part (meta_track : str) : bool :=
  Py.contains (py "with") meta_track && Py.contains (py "parts") meta_track.

Section Scorer.

Variable ratio : str -> str -> Q.

(** Lines 230-234: a synthetic entry against one catalogue title; the
    flag is [is_part_match]. *)
Definition part_similarity (main_title oclc_track : str) : Q * bool :=
  if Py.contains main_title oclc_track || Py.contains oclc_track main_title
  then ((95 # 100)%Q, true)
  else (ratio main_title oclc_track, false).

(** Lines 242-254: any other entry against one catalogue title; the flag
    is [is_substring_match]. *)
Definition title_similarity (meta_track oclc_track : str) : Q * bool :=
  if word_overlap_fires meta_track oclc_track
  then
    let word_similarity :=
      (float_of_nat (common_count meta_track oclc_track)
       / float_of_nat (shorter_length meta_track oclc_track))%Q in
    (Qmax (8 # 10) word_similarity, true)
  else if Py.contains meta_track oclc_track ||
          Py.contains oclc_track meta_track
  then (Qmax (85 # 100) (ratio meta_track oclc_track), true)
  else (ratio meta_track oclc_track, false).

(** The loop over the catalogue titles: [if similarity > best_match] keeps
    the first of the highest similarities; the flag is raised by any
    candidate that takes the flagged branch. *)
Definition candidate_step (sim : str -> Q * bool) (st : Q * Z * bool)
           (it : nat * str) : Q * Z * bool :=
  let '(best_match, best_match_index, flag) := st in
  let '(j, oclc_track) := it in
  let '(similarity, raised) := sim oclc_track in
  if Qltb best_match similarity
  then (similarity, Z.of_nat j, flag || raised)
  else (best_match, best_match_index, flag || raised).

(** The loop from the index [start] on, in the state [st]. *)
Definition scan_from (sim : str -> Q * bool) (start : nat)
           (st : Q * Z * bool) (l : list str) : Q * Z * bool :=
  fold_left (candidate_step sim) (combine (seq start (length l)) l) st.

Definition scan_candidates (sim : str -> Q * bool)
           (norm_oclc_tracks : list str) : Q * Z * bool :=
  fold_left (candidate_step sim) (enumerate norm_oclc_tracks)
            (0%Q, (-1)%Z, false).

(** Lines 222-258: the best match of one normalised metadata track. *)
Definition find_best (meta_track : str) (norm_oclc_tracks : list str)
  : best :=
  if reads_as_multi_part meta_track
  then
    let main_title := Re.sub Pat.with_parts_re [] meta_track in
    let '(b, j, flag) :=
      scan_candidates (part_similarity main_title) norm_oclc_tracks in
    Best b j false flag
  else
    let '(b, j, flag) :=
      scan_candidates (title_similarity meta_track) norm_oclc_tracks in
    Best b j flag false.

(** Lines 260-276: the line of the report for one track. *)
Definition report_line (i : nat) (orig : str) (oclc_tracks : list str)
           (r : best) : match_info :=
  if Qle_bool (8 # 10) (best_match r)
  then
    MatchInfo (i + 1) orig
      (if is_part_match r then TickMultiPart
       else if is_substring_match r then TickSubstring else Tick)
      (Some (nth (Z.to_nat (best_match_index r)) oclc_tracks []))
      (best_match r)
  else
    MatchInfo (i + 1) orig Cross
      (if (0 <=? best_match_index r)%Z
       then Some (nth (Z.to_nat (best_match_index r)) oclc_tracks [])
       else None)
      (best_match r).

(** Lines 218-276: the loop over the consolidated metadata tracks, with
    its two accumulators [matches] and [matched_tracks]. *)
Definition match_step (processed oclc_tracks : list str)
           (acc : Q * list match_info) (it : nat * str)
  : Q * list match_info :=
  let norm_oclc_tracks := map normalize_track oclc_tracks in
  let '(matches, matched_tracks) := acc in
  let '(i, meta_track) := it in
  let r := find_best meta_track norm_oclc_tracks in
  let line := report_line i (nth i processed []) oclc_tracks r in
  if Qle_bool (8 # 10) (best_match r)
  then ((matches + best_match r)%Q, matched_tracks ++ [line])
  else (matches, matched_tracks ++ [line]).

Definition match_loop (processed oclc_tracks : list str)
  : Q * list match_info :=
  fold_left (match_step processed oclc_tracks)
            (enumerate (map normalize_track processed)) (0%Q, []).

(** The report that the function prints. *)
Definition matched_tracks (metadata_tracks oclc_tracks : list str)
  : list match_info :=
  if negb (truthy metadata_tracks) || negb (truthy oclc_tracks) then []
  else snd (match_loop (processed_metadata_tracks metadata_tracks)
                       oclc_tracks).

(** Line 285, as a percentage: [matches / len(norm_metadata_tracks) * 100]
    before the multi-part bonus. *)
Definition raw_percentage (metadata_tracks oclc_tracks : list str) : Q :=
  let processed := processed_metadata_tracks metadata_tracks in
  let matches := fst (match_loop processed oclc_tracks) in
  let similarity :=
    (matches / float_of_nat (length (map normalize_track processed)))%Q in
  (similarity * 100)%Q.

Definition calculate_track_similarity
           (metadata_tracks oclc_tracks : list str) : Q :=
  if negb (truthy metadata_tracks) || negb (truthy oclc_tracks) then 0%Q
  else
    let processed := processed_metadata_tracks metadata_tracks in
    if length (map normalize_track processed) =? 0 then 0%Q
    else
      let percentage := raw_percentage metadata_tracks oclc_tracks in
      if truthy (multi_part_groups metadata_tracks) &&
         Qltb percentage 80
      then Qmin 80 (percentage + 10)%Q
      else percentage.

End Scorer.

(** ** Definitions used to state the properties *)

(** The sum of a list of floats. *)
Definition sum_Q (l : list Q) : Q := fold_right Qplus 0%Q l.

(** The best similarity of a consolidated metadata entry against a
    catalogue list. *)
Definition best_of (ratio : str -> str -> Q) (oclc_tracks : list str)
           (entry : str) : Q :=
  best_match (find_best ratio (normalize_track entry)
                        (map normalize_track oclc_tracks)).

(** What an entry adds to [matches]: its best similarity when that reaches
    0.8, nothing otherwise. *)
Definition credited (ratio : str -> str -> Q) (oclc_tracks : list str)
           (entry : str) : Q :=
  if Qle_bool (8 # 10) (best_of ratio oclc_tracks entry)
  then best_of ratio oclc_tracks entry else 0%Q.

(** The aggregate as the specification words it: the best similarities of
    all consolidated entries, summed, over their count, times 100. *)
Definition spec_percentage (ratio : str -> str -> Q)
           (metadata_tracks oclc_tracks : list str) : Q :=
  (sum_Q (map (best_of ratio oclc_tracks)
              (processed_metadata_tracks metadata_tracks))
   / float_of_nat (length (processed_metadata_tracks metadata_tracks))
   * 100)%Q.

(** The word-overlap condition as the specification words it: at least 60%
    of the words of the smaller set are in the other set. *)
Definition spec_overlap (meta_track oclc_track : str) : Prop :=
  ((6 # 10) * float_of_nat (shorter_length meta_track oclc_track)
   <= float_of_nat (common_count meta_track oclc_track))%Q.

(** No string occurs twice in the list. *)
Fixpoint all_distinct (l : list str) : bool :=
  match l with
  | [] => true
  | t :: l' => negb (Py.mem t l') && all_distinct l'
  end.

(** The tracks that the catalogue extractor takes from the content field
    of the section of [oclc_number], before the fall-back of line 153. *)
Definition oclc_content_tracks (oclc_results oclc_number : str) : list str :=
  match Re.search (Pat.oclc_section_re oclc_number) oclc_results with
  | Some oclc_section => content_tracks (Re.group0 oclc_section)
  | None => []
  end.

(** Sample inputs of the extractors: a structured track section and a
    catalogue record. *)
Fixpoint join (sep : str) (l : list str) : str :=
  match l with
  | [] => []
  | [x] => x
  | x :: l' => x ++ sep ++ join sep l'
  end.

Definition sample_metadata (titles : list str) : str :=
  py "Contents: - tracks: [" ++
  join (py ", ")
    (map (fun it =>
            py "{" ++ Pat.quoted (py "number") ++ py ": " ++
            Py.of_nat (S (fst it)) ++ py ", " ++ Pat.quoted (py "title") ++
            py ": " ++ Pat.quoted (snd it) ++ py "}")
         (enumerate titles)) ++
  py "]".

Definition sample_record (oclc_number content : str) : str :=
  py "OCLC Number: " ++ oclc_number ++ [Re.newline] ++
  py "Content: " ++ content ++ [Re.newline] ++ py "Notes: none".

(** The string begins with white space. *)
Definition starts_space (s : str) : bool :=
  match s with
  | c :: _ => Py.isspace c
  | [] => false
  end.

(** Every white-space character of the string is a blank, and no two of
    them are adjacent. *)
Fixpoint single_spaced (s : str) : bool :=
  match s with
  | [] => true
  | c :: s' =>
      (if Py.isspace c
       then Ascii.eqb c " " && negb (starts_space s') else true)
      && single_spaced s'
  end.

(** A block [(i, j, k)] of [find_longest_match] that lies within [la]
    elements of the first sequence and [lb] of the second. *)
Definition within (la lb : nat) (blk : nat * nat * nat) : Prop :=
  fst (fst blk) + snd blk <= la /\ snd (fst blk) + snd blk <= lb.

(** The condition under which a list is compared with itself entry by
    entry: no consolidated entry reads as a synthetic multi-part entry once
    normalised, and each has the normal form of an entry of the list. *)
Definition self_comparable (metadata_tracks : list str) : bool :=
  forallb
    (fun t =>
       negb (reads_as_multi_part (normalize_track t)) &&
       Py.mem (normalize_track t) (map normalize_track metadata_tracks))
    (processed_metadata_tracks metadata_tracks).

(** A character other than the opening parenthesis. *)
Definition not_paren (c : ascii) : Prop := Ascii.eqb "(" c = false.

(** ** Further definitions: the comparison that [main] makes itself *)

(** [s.upper()] on ASCII. *)
Definition upper_char (c : ascii) : ascii :=
  if Py.islower c then ascii_of_nat (Py.code c - 32) else c.

Definition upper (s : str) : str := map upper_char s.

(** The line of the report carries a tick. *)
Definition ticked (m : mark) : bool :=
  match m with
  | Cross => false
  | Tick | TickMultiPart | TickSubstring => true
  end.

(** The similarity that [find_best] computes for one candidate: the
    multi-part branch for a title that reads as a synthetic entry, the
    word and substring rules otherwise. *)
Definition entry_similarity (ratio : str -> str -> Q) (meta_track : str)
  : str -> Q * bool :=
  if reads_as_multi_part meta_track
  then part_similarity ratio (Re.sub Pat.with_parts_re [] meta_track)
  else title_similarity ratio meta_track.

(** The multi-part bonus of lines 288-293 as a function of the raw
    percentage. *)
Definition with_bonus (has_groups : bool) (percentage : Q) : Q :=
  if has_groups && Qltb percentage 80
  then Qmin 80 (percentage + 10)%Q
  else percentage.

Section Driver.

Variable ratio : str -> str -> Q.

(** Lines 386-401 and 422-437 of [main]: one metadata track against one
    catalogue title, both normalised inside the loop; the word rule, the
    substring rule and the plain ratio, without a multi-part branch. *)
Definition driver_similarity (meta_track oclc_track : str) : Q :=
  fst (title_similarity ratio (normalize_track meta_track)
                        (normalize_track oclc_track)).

(** Lines 384-404: the best similarity of one metadata track. *)
Definition driver_best (oclc_tracks : list str) (meta_track : str) : Q :=
  fold_left
    (fun best_match oclc_track =>
       let similarity := driver_similarity meta_track oclc_track in
       if Qltb best_match similarity then similarity else best_match)
    oclc_tracks 0%Q.

(** Lines 382-407: [matching_tracks]. *)
Definition matching_tracks (metadata_tracks oclc_tracks : list str) : nat :=
  fold_left
    (fun matching meta_track =>
       if Qle_bool (8 # 10) (driver_best oclc_tracks meta_track)
       then matching + 1 else matching)
    metadata_tracks 0.

(** Lines 418-439: the best similarity and [best_match_track]; [None] is
    the initial "No match". *)
Definition driver_best_track (oclc_tracks : list str) (meta_track : str)
  : Q * option str :=
  fold_left
    (fun st oclc_track =>
       let similarity := driver_similarity meta_track oclc_track in
       if Qltb (fst st) similarity then (similarity, Some oclc_track) else st)
    oclc_tracks (0%Q, None).

(** A line of the track comparison of the note: the number, the metadata
    track, the status (a tick or a cross), the best catalogue track and the
    best similarity. *)
Record note_line : Type := NoteLine {
  note_position : nat;
  note_track : str;
  note_status : bool;
  note_match : option str;
  note_score : Q
}.

(** Lines 417-442: the lines of the track comparison. *)
Definition comparison_note (metadata_tracks oclc_tracks : list str)
  : list note_line :=
  map (fun it =>
         let '(i, meta_track) := it in
         let '(best_match, best_match_track) :=
           driver_best_track oclc_tracks meta_track in
         NoteLine (i + 1) meta_track (Qle_bool (8 # 10) best_match)
                  best_match_track best_match)
      (enumerate metadata_tracks).

End Driver.

(** ** Further definitions: invariants and character classes *)

(** The invariant of the loop of lines 186-193. *)
Definition groups_sound (metadata_tracks : list str) (groups : groups_dict)
  : Prop :=
  NoDup (map fst groups) /\
  forall k parts, In (k, parts) groups ->
    parts <> [] /\
    matches_re Pat.part_prefix_re k = false /\
    forall p, In p parts ->
      matches_re Pat.part_re p = true /\
      exists i, S i < length metadata_tracks /\
                nth i metadata_tracks [] = k /\
                nth (S i) metadata_tracks [] = p.

(** A character other than the colon. *)
Definition no_colon (c : ascii) : Prop := Ascii.eqb ":" c = false.

(** A title that is not the empty string. *)
Definition nonempty (t : str) : Prop := t <> [].

(** * Properties *)

(** ** The matcher *)

Section MatcherFacts.
Variable R : Type.

Lemma rep_greedy_rest p (k : str -> option R) (x : R) : forall s,
  Re.rep_greedy p s k = Some x ->
  exists s', k s' = Some x /\ length s' <= length s.
Proof.
  induction s as [|c s IH]; intro H; simpl in H.
  - exists []. split; [exact H | apply Nat.le_refl].
  - destruct (p c).
    + destruct (Re.rep_greedy p s k) as [y|] eqn:E.
      * injection H as ->. destruct (IH eq_refl) as (s' & Hk & Hl).
        exists s'. split; [exact Hk | simpl; lia].
      * exists (c :: s). split; [exact H | apply Nat.le_refl].
    + exists (c :: s). split; [exact H | apply Nat.le_refl].
Qed.

Lemma rep_lazy_rest p (k : str -> option R) (x : R) : forall s,
  Re.rep_lazy p s k = Some x ->
  exists s', k s' = Some x /\ length s' <= length s.
Proof.
  induction s as [|c s IH]; intro H; simpl in H.
  - destruct (k []) eqn:E; [|discriminate].
    exists []. split; [congruence | apply Nat.le_refl].
  - destruct (k (c :: s)) eqn:E.
    + exists (c :: s). split; [congruence | apply Nat.le_refl].
    + destruct (p c); [|discriminate].
      destruct (IH H) as (s' & Hk & Hl).
      exists s'. split; [exact Hk | simpl; lia].
Qed.
End MatcherFacts.

(** A successful match hands a suffix to its continuation, a shorter one
    when the pattern cannot match the empty string. *)
Lemma rmatch_rest (R : Type) (r : Re.re) : forall s caps
    (k : str -> list str -> option R) (x : R),
  Re.rmatch r s caps k = Some x ->
  exists s' caps', k s' caps' = Some x /\ length s' <= length s /\
                   (Re.nullable r = false -> length s' < length s).
Proof.
  induction r as [|p|g p|r1 IH1 r2 IH2|r1 IH1 r2 IH2|r1 IH1|];
    intros s caps k x H; cbn [Re.rmatch Re.nullable] in *.
  - exists s, caps. repeat split; [exact H | lia | discriminate].
  - destruct s as [|c s]; [discriminate|]. destruct (p c); [|discriminate].
    exists s, caps. simpl. repeat split; [exact H | lia | lia].
  - assert (Hr : exists s', k s' caps = Some x /\ length s' <= length s).
    { destruct g; [apply rep_greedy_rest in H | apply rep_lazy_rest in H];
        exact H. }
    destruct Hr as (s' & Hk & Hl). exists s', caps.
    repeat split; [exact Hk | exact Hl | discriminate].
  - apply IH1 in H. destruct H as (s1 & caps1 & H & Hl1 & Hn1).
    apply IH2 in H. destruct H as (s2 & caps2 & H & Hl2 & Hn2).
    exists s2, caps2. repeat split; [exact H | lia |].
    intro Hn. apply andb_false_iff in Hn. destruct Hn as [Hn|Hn].
    + specialize (Hn1 Hn). lia.
    + specialize (Hn2 Hn). lia.
  - destruct (Re.rmatch r1 s caps k) as [y|] eqn:E.
    + injection H as ->. apply IH1 in E.
      destruct E as (s' & caps' & Hk & Hl & Hn).
      exists s', caps'. repeat split; [exact Hk | exact Hl |].
      intro Hf. apply orb_false_iff in Hf. apply Hn. tauto.
    + apply IH2 in H. destruct H as (s' & caps' & Hk & Hl & Hn).
      exists s', caps'. repeat split; [exact Hk | exact Hl |].
      intro Hf. apply orb_false_iff in Hf. apply Hn. tauto.
  - apply IH1 in H. destruct H as (s' & caps' & Hk & Hl & Hn).
    exists s', (caps' ++ [firstn (length s - length s') s]).
    repeat split; [exact Hk | exact Hl | exact Hn].
  - exists s, caps. repeat split; [|lia | discriminate].
    destruct s as [|c [|d s]]; [exact H | | discriminate].
    destruct (Ascii.eqb c Re.newline); [exact H | discriminate].
Qed.

Lemma match_here_consumes (r : Re.re) (s : str) (n : nat) (caps : list str) :
  Re.nullable r = false -> Re.match_here r s = Some (n, caps) -> 0 < n.
Proof.
  intros Hn H. unfold Re.match_here in H. apply rmatch_rest in H.
  destruct H as (s' & caps' & Hk & Hl & Hlt). specialize (Hlt Hn).
  injection Hk as <- _. lia.
Qed.

(** The patterns handed to [finditer], [findall] and [sub] do not match the
    empty string. *)
Lemma patterns_consume :
  forallb (fun r => negb (Re.nullable r))
    ([ Pat.track_object_re; Pat.title_value_re; Pat.track_section_re;
       Pat.listed_track_re; Pat.timed_track_re; Pat.credit_re;
       Pat.trailing_duration_re; Pat.trailing_paren_re; Pat.timed_run_re;
       Pat.with_paren_re; Pat.paren_re; Pat.punct_re; Pat.spaces_re;
       Pat.with_parts_re ] ++ Pat.track_patterns) = true.
Proof. reflexivity. Qed.

(** ** Auxiliary facts on floats *)

Lemma Qltb_true (x y : Q) : Qltb x y = true <-> (x < y)%Q.
Proof.
  unfold Qltb. rewrite negb_true_iff.
  split; intro H.
  - apply Qnot_le_lt. intro L. apply Qle_bool_iff in L. congruence.
  - destruct (Qle_bool y x) eqn:E; [|reflexivity].
    apply Qle_bool_iff in E. exfalso. exact (Qlt_not_le _ _ H E).
Qed.

Lemma Qltb_false (x y : Q) : Qltb x y = false <-> (y <= x)%Q.
Proof.
  unfold Qltb. rewrite negb_false_iff. apply Qle_bool_iff.
Qed.

Lemma Qle_bool_false (x y : Q) : Qle_bool x y = false <-> (y < x)%Q.
Proof.
  split; intro H.
  - apply Qnot_le_lt. intro L. apply Qle_bool_iff in L. congruence.
  - destruct (Qle_bool x y) eqn:E; [|reflexivity].
    apply Qle_bool_iff in E. exfalso. exact (Qlt_not_le _ _ H E).
Qed.

(** ** The loop over the catalogue titles *)

Section Candidates.
Variable sim : str -> Q * bool.

Lemma scan_candidates_eq (l : list str) :
  scan_candidates sim l = scan_from sim 0 (0%Q, (-1)%Z, false) l.
Proof. reflexivity. Qed.

Lemma scan_from_cons start st c l :
  scan_from sim start st (c :: l) = scan_from sim (S start) (candidate_step sim st (start, c)) l.
Proof. reflexivity. Qed.

(** The best similarity never decreases along the loop. *)
Lemma scan_from_ge start b j f l :
  (b <= fst (fst (scan_from sim start (b, j, f) l)))%Q.
Proof.
  revert start b j f. induction l as [|c l IH]; intros start b j f.
  - apply Qle_refl.
  - rewrite scan_from_cons. unfold candidate_step.
    destruct (sim c) as [s r]. destruct (Qltb b s) eqn:E.
    + apply Qltb_true in E. eapply Qle_trans; [|apply IH].
      apply Qlt_le_weak, E.
    + apply IH.
Qed.

(** A bound on every candidate bounds the result. *)
Lemma scan_from_le start b j f l hi :
  (b <= hi)%Q ->
  (forall c, In c l -> (fst (sim c) <= hi)%Q) ->
  (fst (fst (scan_from sim start (b, j, f) l)) <= hi)%Q.
Proof.
  revert start b j f. induction l as [|c l IH]; intros start b j f Hb Hl.
  - exact Hb.
  - rewrite scan_from_cons. unfold candidate_step.
    pose proof (Hl c (or_introl eq_refl)) as Hc.
    destruct (sim c) as [s r]. simpl in Hc.
    destruct (Qltb b s); apply IH; auto; intros; apply Hl; right; auto.
Qed.

(** The result is at least the similarity of every candidate. *)
Lemma scan_from_ge_each start b j f l c :
  In c l -> (fst (sim c) <= fst (fst (scan_from sim start (b, j, f) l)))%Q.
Proof.
  revert start b j f. induction l as [|d l IH]; intros start b j f Hin.
  - destruct Hin.
  - rewrite scan_from_cons. destruct Hin as [->|Hin].
    + unfold candidate_step. destruct (sim c) as [s r]. simpl.
      destruct (Qltb b s) eqn:E.
      * apply scan_from_ge.
      * apply Qltb_false in E. eapply Qle_trans; [exact E|].
        apply scan_from_ge.
    + unfold candidate_step. destruct (sim d) as [s r].
      destruct (Qltb b s); apply IH; exact Hin.
Qed.

(** The flag is raised as soon as one candidate raises it. *)
Lemma scan_from_flag_keep start b j l :
  snd (scan_from sim start (b, j, true) l) = true.
Proof.
  revert start b j. induction l as [|c l IH]; intros start b j.
  - reflexivity.
  - rewrite scan_from_cons. unfold candidate_step. destruct (sim c) as [s r].
    simpl. destruct (Qltb b s); apply IH.
Qed.

Lemma scan_from_flag start b j f l c :
  In c l -> snd (sim c) = true ->
  snd (scan_from sim start (b, j, f) l) = true.
Proof.
  revert start b j f. induction l as [|d l IH]; intros start b j f Hin Hr.
  - destruct Hin.
  - rewrite scan_from_cons. destruct Hin as [->|Hin].
    + unfold candidate_step. destruct (sim c) as [s r]. simpl in Hr. subst r.
      rewrite orb_true_r. destruct (Qltb b s); apply scan_from_flag_keep.
    + unfold candidate_step. destruct (sim d) as [s r].
      destruct (Qltb b s); eapply IH; eauto.
Qed.

(** The flag stays down when no candidate raises it. *)
Lemma scan_from_no_flag start b j l :
  (forall c, In c l -> snd (sim c) = false) ->
  snd (scan_from sim start (b, j, false) l) = false.
Proof.
  revert start b j. induction l as [|d l IH]; intros start b j Hl.
  - reflexivity.
  - rewrite scan_from_cons. unfold candidate_step.
    pose proof (Hl d (or_introl eq_refl)) as Hd.
    destruct (sim d) as [s r]. simpl in Hd. subst r. simpl.
    destruct (Qltb b s); apply IH; intros; apply Hl; right; auto.
Qed.
End Candidates.

(** ** The best match of one entry *)

Section BestMatch.
Variable ratio : str -> str -> Q.

Lemma find_best_plain (m : str) (l : list str) :
  reads_as_multi_part m = false ->
  find_best ratio m l =
  Best (fst (fst (scan_candidates (title_similarity ratio m) l)))
       (snd (fst (scan_candidates (title_similarity ratio m) l)))
       (snd (scan_candidates (title_similarity ratio m) l))
       false.
Proof.
  intro H. unfold find_best. rewrite H.
  destruct (scan_candidates (title_similarity ratio m) l) as [[b j] f].
  reflexivity.
Qed.

Lemma title_similarity_empty (c : str) :
  title_similarity ratio [] c = (Qmax (85 # 100) (ratio [] c), true).
Proof.
  unfold title_similarity, word_overlap_fires, shorter_length. simpl.
  destruct c; reflexivity.
Qed.

(** After the first candidate the best similarity is that candidate's,
    when it is positive. *)
Lemma scan_candidates_first (sim : str -> Q * bool) (c : str)
      (l : list str) (lo : Q) :
  (0 < lo)%Q ->
  (forall d, In d (c :: l) -> (lo <= fst (sim d))%Q) ->
  (lo <= fst (fst (scan_candidates sim (c :: l))))%Q.
Proof.
  intros Hlo Hall. rewrite scan_candidates_eq, scan_from_cons.
  pose proof (Hall c (or_introl eq_refl)) as Hc.
  unfold candidate_step. destruct (sim c) as [s r]. simpl in Hc.
  assert (E : Qltb 0 s = true).
  { apply Qltb_true. eapply Qlt_le_trans; eauto. }
  rewrite E. eapply Qle_trans; [exact Hc|]. apply scan_from_ge.
Qed.
End BestMatch.

(** ** C8: an empty list on either side *)

(** C8. If either list is empty, [calculate_track_similarity] returns 0.0;
    the function is total, so no error is raised:
    score([], B) = score(A, []) = 0.0 for all A and B. *)
Theorem empty_list_scores_zero :
  (forall ratio B, calculate_track_similarity ratio [] B = 0%Q) /\
  (forall ratio A, calculate_track_similarity ratio A [] = 0%Q).
Proof.
  split; intros ratio l.
  - reflexivity.
  - unfold calculate_track_similarity. destruct l; reflexivity.
Qed.

(** ** C7: the multi-part bonus *)

Lemma processed_nonempty (A : list str) :
  A <> [] -> processed_metadata_tracks A <> [].
Proof.
  intro HA. unfold processed_metadata_tracks.
  match goal with |- (if truthy ?p then _ else _) <> _ => destruct p eqn:E end;
    simpl; [exact HA | discriminate].
Qed.

Lemma calculate_unfold ratio (A B : list str) :
  A <> [] -> B <> [] ->
  calculate_track_similarity ratio A B =
  if truthy (multi_part_groups A) && Qltb (raw_percentage ratio A B) 80
  then Qmin 80 (raw_percentage ratio A B + 10)%Q
  else raw_percentage ratio A B.
Proof.
  intros HA HB. unfold calculate_track_similarity.
  destruct A as [|a A]; [congruence|]. destruct B as [|b B]; [congruence|].
  cbn [truthy negb orb].
  pose proof (@processed_nonempty (a :: A) HA) as Hp.
  rewrite length_map.
  destruct (processed_metadata_tracks (a :: A)); [congruence|]. reflexivity.
Qed.

(** C7. When a multi-part group exists and the raw percentage is below 80,
    the result is min(80, raw + 10), which is at most 80 and at least the raw
    percentage; when no group exists or the raw percentage is at least 80,
    the raw percentage is returned unchanged. *)
Theorem multi_part_bonus ratio (A B : list str) :
  A <> [] -> B <> [] ->
  let raw := raw_percentage ratio A B in
  let result := calculate_track_similarity ratio A B in
  (multi_part_groups A <> [] -> (raw < 80)%Q ->
   result = Qmin 80 (raw + 10)%Q /\ (result <= 80)%Q /\ (raw <= result)%Q) /\
  (multi_part_groups A = [] \/ (80 <= raw)%Q -> result = raw).
Proof.
  intros HA HB raw result. subst result.
  rewrite (calculate_unfold ratio HA HB). fold raw. split.
  - intros Hg Hlt.
    destruct (multi_part_groups A) as [|g gs]; [congruence|].
    apply Qltb_true in Hlt. rewrite Hlt. cbn [truthy andb].
    split; [reflexivity|]. split.
    + apply Q.le_min_l.
    + apply Q.min_glb; [apply Qlt_le_weak, Qltb_true, Hlt|].
      rewrite <- (Qplus_0_r raw) at 1. apply Qplus_le_r. discriminate.
  - intros [Hg|Hge].
    + rewrite Hg. reflexivity.
    + apply Qltb_false in Hge. rewrite Hge, andb_false_r. reflexivity.
Qed.

(** ** C10: an entry whose normal form is empty *)

(** C10. A metadata entry whose normalised form is the empty string takes
    the substring rule against every catalogue title (the empty string is
    contained in every string): against a non-empty catalogue list its best
    score is at least 0.85, the substring flag is raised, and the entry is
    counted as matched at the 0.8 threshold, whatever the catalogue holds. *)
Theorem empty_normal_form_is_matched ratio (entry : str) (B : list str) :
  normalize_track entry = [] -> B <> [] ->
  let r := find_best ratio (normalize_track entry) (map normalize_track B) in
  (forall c, word_overlap_fires (normalize_track entry) c = false /\
             title_similarity ratio (normalize_track entry) c =
             (Qmax (85 # 100) (ratio (normalize_track entry) c), true)) /\
  (85 # 100 <= best_match r)%Q /\
  is_substring_match r = true /\
  is_part_match r = false /\
  Qle_bool (8 # 10) (best_match r) = true /\
  credited ratio B entry = best_of ratio B entry.
Proof.
  intros Hn HB.
  assert (Hbest :
    (85 # 100 <= best_match (find_best ratio [] (map normalize_track B)))%Q
    /\ is_substring_match (find_best ratio [] (map normalize_track B)) = true
    /\ is_part_match (find_best ratio [] (map normalize_track B)) = false).
  { rewrite find_best_plain by reflexivity. cbn [best_match is_substring_match
      is_part_match].
    destruct B as [|b B]; [congruence|]. cbn [map]. split; [|split].
    - apply scan_candidates_first; [reflexivity|].
      intros d _. rewrite title_similarity_empty. apply Q.le_max_l.
    - rewrite scan_candidates_eq.
      apply scan_from_flag with (c := normalize_track b); [left; reflexivity|].
      rewrite title_similarity_empty. reflexivity.
    - reflexivity. }
  destruct Hbest as (H1 & H2 & H3).
  assert (H4 : Qle_bool (8 # 10)
            (best_match (find_best ratio [] (map normalize_track B))) = true).
  { apply Qle_bool_iff. eapply Qle_trans; [|exact H1]. discriminate. }
  unfold credited, best_of. rewrite Hn. cbn zeta.
  rewrite H4. split; [|repeat split; assumption].
  intro c. split; [reflexivity | apply title_similarity_empty].
Qed.

Lemma empty_normal_form_is_matched_witness :
  let r := find_best Difflib.ratio (normalize_track (py "Edit"))
                     (map normalize_track [py "Some Song"]) in
  (forall c, word_overlap_fires (normalize_track (py "Edit")) c = false /\
             title_similarity Difflib.ratio (normalize_track (py "Edit")) c =
             (Qmax (85 # 100)
                   (Difflib.ratio (normalize_track (py "Edit")) c), true)) /\
  (85 # 100 <= best_match r)%Q /\
  is_substring_match r = true /\
  is_part_match r = false /\
  Qle_bool (8 # 10) (best_match r) = true /\
  credited Difflib.ratio [py "Some Song"] (py "Edit")
  = best_of Difflib.ratio [py "Some Song"] (py "Edit").
Proof.
  apply (@empty_normal_form_is_matched Difflib.ratio (py "Edit")
           [py "Some Song"]).
  - vm_compute. reflexivity.
  - discriminate.
Defined.

Lemma multi_part_bonus_witness :
  calculate_track_similarity Difflib.ratio
    [py "Intro"; py "Part 1"; py "Part 2"] [py "Intro"]
  = Qmin 80 (raw_percentage Difflib.ratio
               [py "Intro"; py "Part 1"; py "Part 2"] [py "Intro"] + 10)%Q.
Proof.
  refine (proj1 (proj1 (@multi_part_bonus Difflib.ratio
           [py "Intro"; py "Part 1"; py "Part 2"] [py "Intro"] _ _) _ _)).
  - discriminate.
  - discriminate.
  - vm_compute. discriminate.
  - vm_compute. reflexivity.
Defined.

(** ** C4: the word-overlap rule *)

Lemma int_six_tenths (n : nat) :
  int (float_of_nat n * (6 # 10)) = (Z.of_nat n * 6 / 10)%Z.
Proof.
  unfold int.
  assert (H : Qle_bool 0 (float_of_nat n * (6 # 10)) = true).
  { apply Qle_bool_iff. unfold Qle, Qmult, float_of_nat, inject_Z.
    cbn [Qnum Qden]. lia. }
  rewrite H. unfold float_of_nat, Qfloor, Qmult, inject_Z.
  cbn [Qnum Qden]. reflexivity.
Qed.

Lemma word_overlap_iff (meta_track oclc_track : str) :
  word_overlap_fires meta_track oclc_track = true <->
  0 < shorter_length meta_track oclc_track /\
  1 <= common_count meta_track oclc_track /\
  3 * shorter_length meta_track oclc_track
  < 5 * (common_count meta_track oclc_track + 1).
Proof.
  unfold word_overlap_fires.
  set (n := shorter_length meta_track oclc_track).
  set (c := common_count meta_track oclc_track).
  rewrite int_six_tenths, andb_true_iff, Nat.ltb_lt, Z.leb_le.
  split.
  - intros [Hn Hm]. split; [exact Hn|].
    assert (Hd : (Z.of_nat n * 6 / 10 <= Z.of_nat c)%Z) by lia.
    assert (H1 : (1 <= Z.of_nat c)%Z) by lia.
    split; [lia|].
    pose proof (Z.mul_succ_div_gt (Z.of_nat n * 6) 10 ltac:(lia)). lia.
  - intros (Hn & Hc & H3). split; [exact Hn|].
    apply Z.max_lub; [lia|].
    apply Z.lt_succ_r. apply Z.div_lt_upper_bound; lia.
Qed.

(** C4 (amended). The rule fires exactly when the smaller word set is not
    empty and the number of common words is at least
    max(1, floor(0.6 * size of the smaller set)): the threshold is truncated
    to an integer.  So it fires whenever at least 60% of the words of a
    non-empty smaller set are shared, and when it fires the score is
    max(0.8, overlap / size of the smaller set). *)
Theorem word_overlap_rule (meta_track oclc_track : str) :
  let n := shorter_length meta_track oclc_track in
  let c := common_count meta_track oclc_track in
  (word_overlap_fires meta_track oclc_track = true <->
   0 < n /\ (Z.max 1 (Z.of_nat n * 6 / 10) <= Z.of_nat c)%Z) /\
  (word_overlap_fires meta_track oclc_track = true <->
   0 < n /\ 1 <= c /\ 3 * n < 5 * (c + 1)) /\
  (0 < n -> spec_overlap meta_track oclc_track ->
   word_overlap_fires meta_track oclc_track = true) /\
  (forall ratio, word_overlap_fires meta_track oclc_track = true ->
   title_similarity ratio meta_track oclc_track =
   (Qmax (8 # 10) (float_of_nat c / float_of_nat n), true)).
Proof.
  intros n c. split; [|split; [|split]].
  - unfold word_overlap_fires. fold n. fold c.
    rewrite int_six_tenths, andb_true_iff, Nat.ltb_lt, Z.leb_le. lia.
  - apply word_overlap_iff.
  - intros Hn Hs. apply word_overlap_iff.
    unfold spec_overlap, Qle, Qmult, float_of_nat, inject_Z in Hs.
    cbn [Qnum Qden] in Hs. fold n in Hs. fold c in Hs. fold n. fold c. lia.
  - intros ratio Hf. unfold title_similarity. rewrite Hf. reflexivity.
Qed.

(** The rule fires on "a b" against "a c", where one word of two (50%) is
    shared. *)
Lemma word_overlap_fires_below_threshold :
  word_overlap_fires (py "a b") (py "a c") = true /\
  common_count (py "a b") (py "a c") = 1 /\
  shorter_length (py "a b") (py "a c") = 2 /\
  ~ spec_overlap (py "a b") (py "a c").
Proof.
  repeat split; try (vm_compute; reflexivity).
  vm_compute. intro H. apply H. reflexivity.
Qed.

(** ** C1: the aggregate *)

Section Aggregate.
Variable ratio : str -> str -> Q.

Lemma match_loop_from (processed B l : list str) (start : nat)
      (acc : Q) (tr : list match_info) :
  (fst (fold_left (match_step ratio processed B)
          (combine (seq start (length (map normalize_track l)))
                   (map normalize_track l))
          (acc, tr))
   == acc + sum_Q (map (credited ratio B) l))%Q.
Proof.
  revert start acc tr. induction l as [|t l IH]; intros start acc tr.
  - simpl. ring.
  - cbn [map length seq combine fold_left sum_Q fold_right].
    unfold match_step at 2. unfold credited at 1. unfold best_of.
    destruct (Qle_bool (8 # 10)
                (best_match (find_best ratio (normalize_track t)
                               (map normalize_track B)))).
    + rewrite IH. unfold sum_Q. ring.
    + rewrite IH. unfold sum_Q. ring.
Qed.

Lemma match_loop_sum (processed B : list str) :
  (fst (match_loop ratio processed B)
   == sum_Q (map (credited ratio B) processed))%Q.
Proof.
  unfold match_loop, enumerate. rewrite match_loop_from. ring.
Qed.

Lemma raw_percentage_sum (A B : list str) :
  (raw_percentage ratio A B ==
   sum_Q (map (credited ratio B) (processed_metadata_tracks A))
   / float_of_nat (length (processed_metadata_tracks A)) * 100)%Q.
Proof.
  unfold raw_percentage. rewrite match_loop_sum, length_map. reflexivity.
Qed.
End Aggregate.

(** C1 (amended). For non-empty lists the percentage before the bonus is
    the sum of the best similarities of those consolidated entries whose
    best similarity is at least 0.8, divided by the count of all
    consolidated entries, times 100: an entry whose best similarity is
    below 0.8 adds nothing.  Without a multi-part group this is the value
    returned. *)
Theorem aggregate_is_gated_sum ratio (A B : list str) :
  A <> [] -> B <> [] ->
  (raw_percentage ratio A B ==
   sum_Q (map (credited ratio B) (processed_metadata_tracks A))
   / float_of_nat (length (processed_metadata_tracks A)) * 100)%Q /\
  (multi_part_groups A = [] ->
   (calculate_track_similarity ratio A B ==
    sum_Q (map (credited ratio B) (processed_metadata_tracks A))
    / float_of_nat (length (processed_metadata_tracks A)) * 100)%Q).
Proof.
  intros HA HB. split.
  - apply raw_percentage_sum.
  - intro Hg. rewrite (calculate_unfold ratio HA HB), Hg. cbn [truthy andb].
    apply raw_percentage_sum.
Qed.

Lemma aggregate_is_gated_sum_witness :
  (calculate_track_similarity Difflib.ratio
     [py "abc"; py "Love Song"] [py "abd"; py "A Love Song"] ==
   sum_Q (map (credited Difflib.ratio [py "abd"; py "A Love Song"])
              (processed_metadata_tracks [py "abc"; py "Love Song"]))
   / float_of_nat
       (length (processed_metadata_tracks [py "abc"; py "Love Song"]))
   * 100)%Q.
Proof.
  refine (proj2 (@aggregate_is_gated_sum Difflib.ratio
           [py "abc"; py "Love Song"] [py "abd"; py "A Love Song"] _ _) _).
  - discriminate.
  - discriminate.
  - vm_compute. reflexivity.
Defined.

(** With metadata ["abc"] and catalogue ["abd"] the only entry has best
    similarity 2/3: the function returns 0 where the formula of the text
    gives 66.67. *)
Lemma low_scores_earn_no_credit :
  (best_of Difflib.ratio [py "abd"] (py "abc") == 2 # 3)%Q /\
  (calculate_track_similarity Difflib.ratio [py "abc"] [py "abd"] == 0)%Q /\
  (spec_percentage Difflib.ratio [py "abc"] [py "abd"] == 200 # 3)%Q /\
  ~ (calculate_track_similarity Difflib.ratio [py "abc"] [py "abd"] ==
     spec_percentage Difflib.ratio [py "abc"] [py "abd"])%Q.
Proof.
  repeat split; try (vm_compute; reflexivity).
  intro H. vm_compute in H. discriminate H.
Qed.

(** ** C2: multi-part consolidation *)

(** C2. On ["Intro", "Part 1", "Part 2"] the consolidation groups only
    "Part 1" under "Intro": "Part 2" follows an entry that is itself a part,
    fails the test of line 189 and stays a standalone entry, and the
    synthetic entry counts one part. *)
Theorem consecutive_parts_not_grouped :
  multi_part_groups [py "Intro"; py "Part 1"; py "Part 2"]
  = [(py "Intro", [py "Part 1"])] /\
  processed_metadata_tracks [py "Intro"; py "Part 1"; py "Part 2"]
  = [py "Part 2"; py "Intro (with 1 parts)"].
Proof. split; vm_compute; reflexivity. Qed.

(** ** C3: the match of a synthetic entry *)

(** C3. The normaliser removes the marker of a synthetic entry, so the test
    of line 227 fails on it and the entry is matched by the word-overlap
    rule: ["Intro", "Part 1"] against ["Intro"] is reported as a substring
    match of score 1, not as a multi-part match. *)
Theorem synthetic_entry_not_multi_part :
  normalize_track (py "Intro (with 2 parts)") = py "intro" /\
  reads_as_multi_part (normalize_track (py "Intro (with 2 parts)")) = false /\
  processed_metadata_tracks [py "Intro"; py "Part 1"]
  = [py "Intro (with 1 parts)"] /\
  map (fun m => (orig_track m, symbol m, counterpart m))
      (matched_tracks Difflib.ratio [py "Intro"; py "Part 1"] [py "Intro"])
  = [(py "Intro (with 1 parts)", TickSubstring, Some (py "Intro"))] /\
  is_part_match
    (find_best Difflib.ratio (normalize_track (py "Intro (with 2 parts)"))
               [normalize_track (py "Intro")]) = false.
Proof. repeat split; vm_compute; reflexivity. Qed.

(** ** C9: duplicates in the extracted lists *)

Lemma mem_true (t : str) (l : list str) : Py.mem t l = true <-> In t l.
Proof.
  unfold Py.mem. rewrite existsb_exists. split.
  - intros (x & Hx & E). unfold Py.eqb in E.
    destruct (list_eq_dec ascii_dec t x); [subst; exact Hx | discriminate].
  - intro H. exists t. split; [exact H|]. unfold Py.eqb.
    destruct (list_eq_dec ascii_dec t t); [reflexivity | congruence].
Qed.

Lemma mem_false (t : str) (l : list str) : Py.mem t l = false <-> ~ In t l.
Proof.
  rewrite <- mem_true. destruct (Py.mem t l); split; congruence.
Qed.

Lemma all_distinct_NoDup (l : list str) : all_distinct l = true <-> NoDup l.
Proof.
  induction l as [|t l IH]; simpl.
  - split; [constructor | reflexivity].
  - rewrite andb_true_iff, negb_true_iff, mem_false, IH. split.
    + intros [H1 H2]. constructor; assumption.
    + intro H. inversion H; subst. split; assumption.
Qed.

Lemma append_new_NoDup (tracks : list str) (cleaned : str) :
  NoDup tracks -> NoDup (append_new tracks cleaned).
Proof.
  intro H. unfold append_new.
  destruct (truthy cleaned && not_sentinel cleaned); [|exact H].
  destruct (Py.mem cleaned tracks) eqn:E; simpl; [exact H|].
  apply mem_false in E.
  apply NoDup_rev in H. rewrite <- (rev_involutive (tracks ++ [cleaned])).
  apply NoDup_rev. rewrite rev_app_distr. simpl.
  constructor; [rewrite <- in_rev; exact E | exact H].
Qed.

Lemma fold_append_new_NoDup (A : Type) (f : A -> str) (l : list A)
      (tracks : list str) :
  NoDup tracks ->
  NoDup (fold_left (fun tracks x => append_new tracks (f x)) l tracks).
Proof.
  revert tracks. induction l as [|x l IH]; intros tracks H; simpl.
  - exact H.
  - apply IH, append_new_NoDup, H.
Qed.

Lemma cascade_tracks_NoDup (metadata_str : str) (tracks : list str) :
  NoDup tracks -> NoDup (cascade_tracks metadata_str tracks).
Proof.
  unfold cascade_tracks. generalize Pat.track_patterns.
  intro ps. revert tracks. induction ps as [|p ps IH]; intros tracks H; simpl.
  - exact H.
  - apply IH. destruct (length tracks <? 3); [|exact H].
    apply fold_append_new_NoDup with
      (f := fun title => Py.rstrip_char "," (Py.strip title)).
    exact H.
Qed.

Lemma unstructured_tracks_NoDup (metadata_str : str) (tracks : list str) :
  NoDup tracks -> NoDup (unstructured_tracks metadata_str tracks).
Proof.
  unfold unstructured_tracks.
  generalize (Re.findall1 Pat.track_section_re metadata_str).
  intro secs. revert tracks.
  induction secs as [|sec secs IH]; intros tracks H; simpl.
  - exact H.
  - apply IH. apply fold_append_new_NoDup with (f := Py.strip). exact H.
Qed.

(** C9 (amended). Only the fall-back stages test for an equal title before
    they append: the pattern cascade and the free-text scan of the metadata
    extractor, and the scan for timed runs of the catalogue extractor.  The
    stages that read the structured section and the content field append
    every accepted title.  So a returned list has no title twice whenever
    the titles of its structured section, or of its content field, are
    distinct. *)
Theorem fallback_stages_add_no_duplicate
        (metadata_str oclc_results oclc_number : str) :
  all_distinct (structured_tracks metadata_str) = true ->
  all_distinct (oclc_content_tracks oclc_results oclc_number) = true ->
  NoDup (extract_tracks_from_metadata metadata_str) /\
  NoDup (extract_tracks_from_oclc oclc_results oclc_number).
Proof.
  intros Hm Ho. apply all_distinct_NoDup in Hm. apply all_distinct_NoDup in Ho.
  split.
  - unfold extract_tracks_from_metadata.
    apply NoDup_filter, NoDup_filter.
    set (t1 := if length (structured_tracks metadata_str) <? 3
               then cascade_tracks metadata_str (structured_tracks metadata_str)
               else structured_tracks metadata_str).
    assert (H1 : NoDup t1).
    { subst t1. destruct (length (structured_tracks metadata_str) <? 3);
        [apply cascade_tracks_NoDup|]; exact Hm. }
    destruct (length t1 <? 3); [apply unstructured_tracks_NoDup|]; exact H1.
  - unfold extract_tracks_from_oclc. unfold oclc_content_tracks in Ho.
    destruct (Re.search (Pat.oclc_section_re oclc_number) oclc_results)
      as [sec|]; [|constructor].
    cbn zeta. destruct (truthy (content_tracks (Re.group0 sec))); simpl.
    + exact Ho.
    + unfold timed_runs. apply fold_append_new_NoDup with (f := Py.strip).
      constructor.
Qed.

Lemma fallback_stages_add_no_duplicate_witness :
  NoDup (extract_tracks_from_metadata
           (sample_metadata [py "Alpha"; py "Beta"])) /\
  NoDup (extract_tracks_from_oclc
           (sample_record (py "123") (py "Song A -- Song B (3:45)."))
           (py "123")).
Proof.
  apply fallback_stages_add_no_duplicate; vm_compute; reflexivity.
Defined.

(** A structured section with the title "A" twice, and a content field with
    "Song A" twice: both extractors return the title twice. *)
Lemma primary_stages_keep_duplicates :
  extract_tracks_from_metadata (sample_metadata [py "A"; py "A"; py "B"])
  = [py "A"; py "A"; py "B"] /\
  extract_tracks_from_oclc
    (sample_record (py "123") (py "Song A -- Song A -- Song B (3:45)."))
    (py "123")
  = [py "Song A"; py "Song A"; py "Song B"] /\
  ~ NoDup (extract_tracks_from_metadata
             (sample_metadata [py "A"; py "A"; py "B"])) /\
  ~ NoDup (extract_tracks_from_oclc
             (sample_record (py "123")
                (py "Song A -- Song A -- Song B (3:45)."))
             (py "123")).
Proof.
  repeat split; try (vm_compute; reflexivity);
    intro H; apply all_distinct_NoDup in H; vm_compute in H; discriminate H.
Qed.

(** ** The similarity ratio is at most 1 *)

Section BlockBounds.
Variable pop : ascii -> bool.

Lemma next_row_length x b prev :
  length (Difflib.next_row pop x b prev) = length b.
Proof.
  revert prev. induction b as [|y b IH]; intro prev; simpl; auto.
Qed.

Lemma next_row_bound x b : forall prev I off,
  (forall j, nth j prev 0 <= I /\ nth j prev 0 <= j + off) ->
  forall j, nth j (Difflib.next_row pop x b prev) 0 <= S I /\
            nth j (Difflib.next_row pop x b prev) 0 <= j + off + 1.
Proof.
  induction b as [|y b IH]; intros prev I off Hp j.
  - simpl. destruct j; lia.
  - simpl. destruct j as [|j].
    + pose proof (Hp 0) as [H1 H2].
      assert (E : hd 0 prev = nth 0 prev 0) by (destruct prev; reflexivity).
      destruct (Ascii.eqb x y && negb (pop y)); rewrite ?E; lia.
    + assert (Ht : forall t, nth t (tl prev) 0 <= I /\
                             nth t (tl prev) 0 <= t + (off + 1)).
      { intro t. pose proof (Hp (S t)) as [H1 H2].
        assert (E : nth t (tl prev) 0 = nth (S t) prev 0).
        { destruct prev; [destruct t|]; reflexivity. }
        rewrite E. lia. }
      pose proof (IH (tl prev) I (off + 1) Ht j). lia.
Qed.

Lemma scan_row_within i lb row : forall j best,
  (forall t, nth t row 0 <= i + 1 /\ nth t row 0 <= j + t + 1) ->
  j + length row <= lb ->
  within (i + 1) lb best ->
  within (i + 1) lb (Difflib.scan_row i j row best).
Proof.
  induction row as [|k row IH]; intros j best Hrow Hlen Hb; simpl.
  - exact Hb.
  - apply IH.
    + intro t. pose proof (Hrow (S t)). simpl in *. lia.
    + simpl in Hlen. lia.
    + destruct (snd best <? k); [|exact Hb].
      pose proof (Hrow 0) as [H1 H2]. simpl in *.
      unfold within. simpl. lia.
Qed.

Lemma longest_run_within b : forall a i prev best,
  (forall j, nth j prev 0 <= i /\ nth j prev 0 <= j + 1) ->
  within i (length b) best ->
  within (i + length a) (length b) (Difflib.longest_run pop i a b prev best).
Proof.
  induction a as [|x a IH]; intros i prev best Hp Hb; simpl.
  - rewrite Nat.add_0_r. exact Hb.
  - replace (i + S (length a)) with (S i + length a) by lia.
    assert (Hrow : forall j,
               nth j (Difflib.next_row pop x b (0 :: prev)) 0 <= S i /\
               nth j (Difflib.next_row pop x b (0 :: prev)) 0 <= j + 0 + 1).
    { apply next_row_bound. intro j. destruct j as [|j]; simpl; [lia|].
      pose proof (Hp j). lia. }
    apply IH.
    + intro j. pose proof (Hrow j). lia.
    + replace (S i) with (i + 1) by lia.
      apply scan_row_within.
      * intro t. pose proof (Hrow t). lia.
      * rewrite next_row_length. lia.
      * unfold within in *. lia.
Qed.

Lemma extend_left_within la lb a b : forall fuel blk,
  within la lb blk -> within la lb (Difflib.extend_left fuel a b blk).
Proof.
  induction fuel as [|fuel IH]; intros [[i j] k] H; simpl; [exact H|].
  destruct ((0 <? i) && (0 <? j) &&
            Ascii.eqb (nth (i - 1) a zero) (nth (j - 1) b zero)) eqn:E;
    [|exact H].
  apply IH. rewrite !andb_true_iff, !Nat.ltb_lt in E.
  unfold within in *. simpl in *. lia.
Qed.

Lemma extend_right_within a b : forall fuel blk,
  within (length a) (length b) blk ->
  within (length a) (length b) (Difflib.extend_right fuel a b blk).
Proof.
  induction fuel as [|fuel IH]; intros [[i j] k] H; simpl; [exact H|].
  destruct ((i + k <? length a) && (j + k <? length b) &&
            Ascii.eqb (nth (i + k) a zero) (nth (j + k) b zero)) eqn:E;
    [|exact H].
  apply IH. rewrite !andb_true_iff, !Nat.ltb_lt in E.
  unfold within in *. simpl in *. lia.
Qed.

(** The longest block lies within both sequences. *)
Lemma find_longest_match_within a b :
  within (length a) (length b) (Difflib.find_longest_match pop a b).
Proof.
  unfold Difflib.find_longest_match.
  apply extend_right_within, extend_left_within.
  apply (@longest_run_within b a 0 [] (0, 0, 0)).
  - intro j. destruct j; simpl; lia.
  - unfold within. simpl. lia.
Qed.

Lemma matches_from_le : forall fuel a b,
  Difflib.matches_from pop fuel a b <= min (length a) (length b).
Proof.
  induction fuel as [|fuel IH]; intros a b; simpl; [lia|].
  pose proof (find_longest_match_within a b) as Hw.
  destruct (Difflib.find_longest_match pop a b) as [[i j] k].
  unfold within in Hw. simpl in Hw.
  destruct (k =? 0) eqn:Ek; [lia|]. apply Nat.eqb_neq in Ek.
  pose proof (IH (firstn i a) (firstn j b)) as H1.
  pose proof (IH (skipn (i + k) a) (skipn (j + k) b)) as H2.
  rewrite !length_firstn in H1. rewrite !length_skipn in H2.
  destruct ((0 <? i) && (0 <? j));
    destruct ((i + k <? length a) && (j + k <? length b)); lia.
Qed.

(** Enough fuel: the count does not depend on the fuel once it reaches
    the length of the first sequence. *)
Lemma matches_fuel : forall f1 f2 a b,
  length a <= f1 -> length a <= f2 ->
  Difflib.matches_from pop f1 a b = Difflib.matches_from pop f2 a b.
Proof.
  assert (Hnil : forall f b, Difflib.matches_from pop f [] b = 0).
  { intros [|f] b; [reflexivity|]. simpl.
    pose proof (find_longest_match_within [] b) as Hw.
    destruct (Difflib.find_longest_match pop [] b) as [[i j] k].
    unfold within in Hw. simpl in Hw.
    assert (k = 0) by lia. subst k. reflexivity. }
  induction f1 as [|f1 IH]; intros f2 a b H1 H2.
  - destruct a; [|simpl in H1; lia]. rewrite !Hnil. reflexivity.
  - destruct f2 as [|f2].
    + destruct a; [|simpl in H2; lia]. rewrite !Hnil. reflexivity.
    + simpl.
      pose proof (find_longest_match_within a b) as Hw.
      destruct (Difflib.find_longest_match pop a b) as [[i j] k].
      unfold within in Hw. simpl in Hw.
      destruct (k =? 0) eqn:Ek; [reflexivity|]. apply Nat.eqb_neq in Ek.
      rewrite (IH f2 (firstn i a) (firstn j b))
        by (rewrite length_firstn; lia).
      rewrite (IH f2 (skipn (i + k) a) (skipn (j + k) b))
        by (rewrite length_skipn; lia).
      reflexivity.
Qed.
End BlockBounds.

Lemma matches_le (a b : str) :
  Difflib.matches a b <= min (length a) (length b).
Proof. apply matches_from_le. Qed.

Lemma ratio_le_1 (a b : str) : (Difflib.ratio a b <= 1)%Q.
Proof.
  unfold Difflib.ratio.
  destruct (length a + length b =? 0) eqn:E; [apply Qle_refl|].
  apply Nat.eqb_neq in E. pose proof (matches_le a b) as Hm.
  apply Qle_shift_div_r.
  - unfold Qlt, inject_Z. simpl. lia.
  - unfold Qle, Qmult, inject_Z. cbn [Qnum Qden]. lia.
Qed.

Lemma ratio_nonneg (a b : str) : (0 <= Difflib.ratio a b)%Q.
Proof.
  unfold Difflib.ratio.
  destruct (length a + length b =? 0) eqn:E; [discriminate|].
  apply Nat.eqb_neq in E.
  apply Qle_shift_div_l.
  - unfold Qlt, inject_Z. simpl. lia.
  - unfold Qle, Qmult, inject_Z. cbn [Qnum Qden]. lia.
Qed.

(** ** C6: the normaliser applied twice *)

(** *** Characters *)

Lemma lower_char_not_upper (c : ascii) : Py.isupper (Py.lower_char c) = false.
Proof. destruct c as [[] [] [] [] [] [] [] []]; reflexivity. Qed.

Lemma lower_fixed (s : str) :
  Forall (fun c => Py.isupper c = false) s -> Py.lower s = s.
Proof.
  unfold Py.lower.
  induction 1 as [|c s Hc Hs IH]; cbn [map]; [reflexivity|].
  rewrite IH. unfold Py.lower_char. rewrite Hc. reflexivity.
Qed.

Lemma lower_not_upper (s : str) :
  Forall (fun c => Py.isupper c = false) (Py.lower s).
Proof.
  induction s; simpl; constructor; auto using lower_char_not_upper.
Qed.

(** *** Operations that keep a property of all characters *)

Section Keeps.
Variable P : ascii -> Prop.

Lemma dropwhile_Forall p (s : str) :
  Forall P s -> Forall P (Py.dropwhile p s).
Proof.
  induction 1 as [|c s Hc Hs IH]; simpl; [constructor|].
  destruct (p c); [exact IH | constructor; assumption].
Qed.

Lemma strip_Forall (s : str) : Forall P s -> Forall P (Py.strip s).
Proof.
  intro H. unfold Py.strip, Py.rstrip, Py.lstrip.
  apply Forall_rev, dropwhile_Forall, Forall_rev, dropwhile_Forall, H.
Qed.

Lemma replace_from_Forall (old new : str) :
  Forall P new ->
  forall s skip, Forall P s -> Forall P (Py.replace_from old new skip s).
Proof.
  intros Hnew s.
  induction s as [|c s IH]; intros skip Hs; cbn [Py.replace_from].
  - constructor.
  - inversion Hs; subst. destruct skip; [|auto].
    destruct (Py.startswith (c :: s) old).
    + apply Forall_app. split; auto.
    + constructor; auto.
Qed.

Lemma replace_Forall (old new s : str) :
  Forall P new -> Forall P s -> Forall P (Py.replace old new s).
Proof. intros. apply replace_from_Forall; assumption. Qed.

Lemma sub_from_Forall (r : Re.re) (repl : str) :
  Forall P repl ->
  forall s skip, Forall P s -> Forall P (Re.sub_from r repl skip s).
Proof.
  intros Hrepl s.
  induction s as [|c s IH]; intros skip Hs; cbn [Re.sub_from].
  - constructor.
  - inversion Hs; subst. destruct skip; [|auto].
    destruct (Re.match_here r (c :: s)) as [[[|n] caps]|].
    + constructor; auto.
    + apply Forall_app. split; auto.
    + constructor; auto.
Qed.

Lemma sub_Forall (r : Re.re) (repl s : str) :
  Forall P repl -> Forall P s -> Forall P (Re.sub r repl s).
Proof. intros. apply sub_from_Forall; assumption. Qed.
End Keeps.

(** *** Substitution where nothing matches *)

Lemma sub_from_skip (r : Re.re) (repl : str) : forall s n,
  Re.sub_from r repl n s = Re.sub_from r repl 0 (skipn n s).
Proof.
  induction s as [|c s IH]; intro n.
  - destruct n; reflexivity.
  - destruct n as [|n]; [reflexivity|]. simpl. apply IH.
Qed.

Section NoMatch.
Variable Q : ascii -> Prop.

Lemma rep_greedy_none (R : Type) p (k : str -> option R) :
  (forall t, Forall Q t -> k t = None) ->
  forall s, Forall Q s -> Re.rep_greedy p s k = None.
Proof.
  intros Hk s. induction s as [|c s IH]; intro Hs; simpl.
  - apply Hk. constructor.
  - inversion Hs; subst. destruct (p c).
    + rewrite IH by assumption. apply Hk, Hs.
    + apply Hk, Hs.
Qed.

Lemma sub_no_match (r : Re.re) (repl : str) :
  (forall t, Forall Q t -> Re.match_here r t = None) ->
  forall s, Forall Q s -> Re.sub r repl s = s.
Proof.
  intros Hr s. unfold Re.sub.
  induction s as [|c s IH]; intro Hs; cbn [Re.sub_from]; [reflexivity|].
  rewrite (Hr _ Hs). inversion Hs; subst. rewrite IH by assumption.
  reflexivity.
Qed.
End NoMatch.

Lemma with_paren_no_match (t : str) :
  Forall not_paren t -> Re.match_here Pat.with_paren_re t = None.
Proof.
  intro Ht. unfold Re.match_here, Pat.with_paren_re. cbn [Pat.cat fold_right].
  cbn [Re.rmatch Re.Star].
  apply rep_greedy_none with (Q := not_paren); [|exact Ht].
  intros u Hu. destruct u as [|c u]; [reflexivity|].
  inversion Hu as [|c' u' Hc Hu']; subst. unfold not_paren in Hc.
  cbn [py list_ascii_of_string Re.Lit Re.rmatch]. unfold Re.ch at 1.
  rewrite Hc. reflexivity.
Qed.

Lemma paren_no_match (t : str) :
  Forall not_paren t -> Re.match_here Pat.paren_re t = None.
Proof.
  intro Ht. unfold Re.match_here, Pat.paren_re. cbn [Pat.cat fold_right].
  cbn [Re.rmatch Re.Star].
  apply rep_greedy_none with (Q := not_paren); [|exact Ht].
  intros u Hu. destruct u as [|c u]; [reflexivity|].
  inversion Hu as [|c' u' Hc Hu']; subst. unfold not_paren in Hc.
  cbn [py list_ascii_of_string Re.Lit Re.rmatch]. unfold Re.ch at 1.
  rewrite Hc. reflexivity.
Qed.

(** *** [replace] where the old string does not occur *)

Lemma replace_absent (old new s : str) :
  Py.contains old s = false -> Py.replace old new s = s.
Proof.
  unfold Py.replace.
  induction s as [|c s IH]; intro H; cbn [Py.replace_from].
  - reflexivity.
  - cbn [Py.contains] in H. apply orb_false_iff in H. destruct H as [H1 H2].
    rewrite H1, IH by assumption. reflexivity.
Qed.

Lemma contains_paren_absent (old s : str) :
  Forall not_paren s -> Py.contains ("("%char :: old) s = false.
Proof.
  induction 1 as [|c s Hc Hs IH]; cbn [Py.contains Py.startswith];
    [reflexivity|].
  unfold not_paren in Hc. rewrite Hc, IH. reflexivity.
Qed.

(** *** Punctuation *)

Lemma punct_match (c : ascii) (s : str) :
  Re.match_here Pat.punct_re (c :: s) =
  if Pat.punct c then Some (1, []) else None.
Proof.
  unfold Re.match_here, Pat.punct_re. cbn [Re.rmatch length].
  destruct (Pat.punct c); [|reflexivity].
  rewrite Nat.sub_succ_l, Nat.sub_diag by lia. reflexivity.
Qed.

Lemma sub_punct_clean (s : str) :
  Forall (fun c => Pat.punct c = false) (Re.sub Pat.punct_re [] s).
Proof.
  unfold Re.sub. induction s as [|c s IH]; cbn [Re.sub_from]; [constructor|].
  rewrite punct_match.
  destruct (Pat.punct c) eqn:E; simpl; [exact IH | constructor; auto].
Qed.

Lemma sub_punct_fixed (s : str) :
  Forall (fun c => Pat.punct c = false) s -> Re.sub Pat.punct_re [] s = s.
Proof.
  unfold Re.sub.
  induction 1 as [|c s Hc Hs IH]; cbn [Re.sub_from]; [reflexivity|].
  rewrite punct_match, Hc, IH. reflexivity.
Qed.

(** *** Runs of white space *)

Lemma dropwhile_length p (s : str) : length (Py.dropwhile p s) <= length s.
Proof.
  induction s as [|c s IH]; simpl; [lia|]. destruct (p c); simpl; lia.
Qed.

Lemma dropwhile_idem p (s : str) :
  Py.dropwhile p (Py.dropwhile p s) = Py.dropwhile p s.
Proof.
  induction s as [|c s IH]; simpl; [reflexivity|].
  destruct (p c) eqn:E; [exact IH|]. simpl. rewrite E. reflexivity.
Qed.

Lemma skipn_dropwhile p (s : str) :
  skipn (length s - length (Py.dropwhile p s)) s = Py.dropwhile p s.
Proof.
  induction s as [|c s IH]; [reflexivity|]. cbn [Py.dropwhile].
  destruct (p c).
  - pose proof (dropwhile_length p s).
    cbn [length]. rewrite Nat.sub_succ_l by assumption.
    cbn [skipn]. exact IH.
  - rewrite Nat.sub_diag. reflexivity.
Qed.

Lemma rep_greedy_total (R : Type) p (k : str -> option R) :
  (forall t, k t <> None) ->
  forall s, Re.rep_greedy p s k = k (Py.dropwhile p s).
Proof.
  intros Hk s. induction s as [|c s IH]; simpl; [reflexivity|].
  destruct (p c); [|reflexivity]. rewrite IH.
  destruct (k (Py.dropwhile p s)) eqn:E; [reflexivity|].
  exfalso. exact (Hk _ E).
Qed.

Lemma spaces_match (c : ascii) (s : str) :
  Re.match_here Pat.spaces_re (c :: s) =
  if Py.isspace c
  then Some (S (length s - length (Py.dropwhile Py.isspace s)), [])
  else None.
Proof.
  unfold Re.match_here, Pat.spaces_re, Re.Plus. cbn [Re.rmatch].
  unfold Pat.sp. destruct (Py.isspace c); [|reflexivity].
  rewrite rep_greedy_total by discriminate.
  pose proof (dropwhile_length Py.isspace s).
  cbn [length]. rewrite Nat.sub_succ_l by assumption. reflexivity.
Qed.

(** The equation of [re.sub(r'\s+', ' ', s)]: a run of white space becomes
    one blank. *)
Lemma sub_spaces_cons (c : ascii) (s : str) :
  Re.sub Pat.spaces_re (py " ") (c :: s) =
  if Py.isspace c
  then " "%char :: Re.sub Pat.spaces_re (py " ") (Py.dropwhile Py.isspace s)
  else c :: Re.sub Pat.spaces_re (py " ") s.
Proof.
  unfold Re.sub. cbn [Re.sub_from]. rewrite spaces_match.
  destruct (Py.isspace c); [|reflexivity].
  rewrite sub_from_skip, skipn_dropwhile. reflexivity.
Qed.

Lemma dropwhile_starts (s : str) :
  starts_space (Py.dropwhile Py.isspace s) = false.
Proof.
  induction s as [|c s IH]; simpl; [reflexivity|].
  destruct (Py.isspace c) eqn:E; [exact IH|]. simpl. exact E.
Qed.

Lemma dropwhile_fixed (s : str) :
  starts_space s = false -> Py.dropwhile Py.isspace s = s.
Proof.
  destruct s as [|c s]; simpl; [reflexivity|]. intro H. rewrite H.
  reflexivity.
Qed.

Lemma sub_spaces_starts (s : str) :
  starts_space s = false ->
  starts_space (Re.sub Pat.spaces_re (py " ") s) = false.
Proof.
  destruct s as [|c s]; [reflexivity|]. intro H. simpl in H.
  rewrite sub_spaces_cons, H. simpl. exact H.
Qed.

Lemma sub_spaces_single_spaced : forall n (s : str),
  length s <= n -> single_spaced (Re.sub Pat.spaces_re (py " ") s) = true.
Proof.
  induction n as [|n IH]; intros s Hn.
  - destruct s; [reflexivity | simpl in Hn; lia].
  - destruct s as [|c s]; [reflexivity|]. simpl in Hn.
    rewrite sub_spaces_cons. destruct (Py.isspace c) eqn:E.
    + cbn [single_spaced]. change (Py.isspace " ") with true.
      cbn [Ascii.eqb Bool.eqb andb].
      rewrite sub_spaces_starts by apply dropwhile_starts.
      rewrite IH; [reflexivity|].
      pose proof (dropwhile_length Py.isspace s). lia.
    + cbn [single_spaced]. rewrite E. rewrite IH by lia. reflexivity.
Qed.

Lemma sub_spaces_fixed (s : str) :
  single_spaced s = true -> Re.sub Pat.spaces_re (py " ") s = s.
Proof.
  induction s as [|c s IH]; [reflexivity|]. cbn [single_spaced].
  intro H. apply andb_true_iff in H. destruct H as [H1 H2].
  rewrite sub_spaces_cons. destruct (Py.isspace c).
  - apply andb_true_iff in H1. destruct H1 as [Hc Hs].
    apply Ascii.eqb_eq in Hc. apply negb_true_iff in Hs.
    rewrite dropwhile_fixed, IH by assumption. subst c. reflexivity.
  - rewrite IH by assumption. reflexivity.
Qed.

(** *** [strip] *)

Lemma dropwhile_snoc p (l : str) (c : ascii) :
  Py.dropwhile p (l ++ [c]) =
  match Py.dropwhile p l with
  | [] => if p c then [] else [c]
  | d :: l' => (d :: l') ++ [c]
  end.
Proof.
  induction l as [|x l IH]; simpl.
  - destruct (p c); reflexivity.
  - destruct (p x); [exact IH | reflexivity].
Qed.

Lemma rstrip_cons (c : ascii) (s : str) :
  Py.rstrip (c :: s) =
  match Py.rstrip s with
  | [] => if Py.isspace c then [] else [c]
  | d :: r => c :: d :: r
  end.
Proof.
  unfold Py.rstrip. cbn [rev]. rewrite dropwhile_snoc.
  destruct (Py.dropwhile Py.isspace (rev s)) as [|d l] eqn:E.
  - simpl. destruct (Py.isspace c); reflexivity.
  - rewrite rev_app_distr. cbn [rev app].
    destruct (rev l ++ [d]) eqn:E2; [|reflexivity].
    destruct (rev l); discriminate.
Qed.

Lemma rstrip_starts (s : str) :
  starts_space s = false -> starts_space (Py.rstrip s) = false.
Proof.
  destruct s as [|c s]; [reflexivity|]. intro H. simpl in H.
  rewrite rstrip_cons. destruct (Py.rstrip s); simpl; rewrite ?H; auto.
Qed.

Lemma rstrip_head (s : str) :
  Py.rstrip s = [] \/ starts_space (Py.rstrip s) = starts_space s.
Proof.
  destruct s as [|c s]; [left; reflexivity|]. rewrite rstrip_cons.
  destruct (Py.rstrip s); [|right; reflexivity].
  destruct (Py.isspace c) eqn:E; [left; reflexivity|].
  right. simpl. reflexivity.
Qed.

Lemma dropwhile_single_spaced (s : str) :
  single_spaced s = true -> single_spaced (Py.dropwhile Py.isspace s) = true.
Proof.
  induction s as [|c s IH]; [reflexivity|]. intro H. cbn [Py.dropwhile].
  destruct (Py.isspace c) eqn:E; [|exact H].
  apply IH. cbn [single_spaced] in H. apply andb_true_iff in H. tauto.
Qed.

Lemma rstrip_single_spaced (s : str) :
  single_spaced s = true -> single_spaced (Py.rstrip s) = true.
Proof.
  induction s as [|c s IH]; [reflexivity|]. intro H.
  cbn [single_spaced] in H. apply andb_true_iff in H. destruct H as [H1 H2].
  specialize (IH H2). rewrite rstrip_cons.
  destruct (Py.rstrip s) as [|d r] eqn:E.
  - destruct (Py.isspace c) eqn:Ec; [reflexivity|].
    cbn [single_spaced]. rewrite Ec. reflexivity.
  - cbn [single_spaced]. cbn [single_spaced] in IH. rewrite IH, andb_true_r.
    destruct (Py.isspace c); [|reflexivity].
    apply andb_true_iff in H1. destruct H1 as [Hc Hs]. rewrite Hc.
    destruct (rstrip_head s) as [Hn|Hh]; [congruence|].
    rewrite E in Hh. rewrite Hh. exact Hs.
Qed.

Lemma strip_idem (s : str) : Py.strip (Py.strip s) = Py.strip s.
Proof.
  unfold Py.strip.
  assert (H1 : Py.lstrip (Py.rstrip (Py.lstrip s)) = Py.rstrip (Py.lstrip s)).
  { apply dropwhile_fixed, rstrip_starts, dropwhile_starts. }
  rewrite H1. unfold Py.rstrip at 1 2.
  rewrite rev_involutive, dropwhile_idem. reflexivity.
Qed.

Lemma strip_fixed (s : str) :
  starts_space s = false -> starts_space (rev s) = false -> Py.strip s = s.
Proof.
  intros H1 H2. unfold Py.strip, Py.lstrip, Py.rstrip.
  rewrite (dropwhile_fixed _ H1), (dropwhile_fixed _ H2).
  apply rev_involutive.
Qed.

Lemma strip_single_spaced (s : str) :
  single_spaced s = true -> single_spaced (Py.strip s) = true.
Proof.
  intro H. apply rstrip_single_spaced, dropwhile_single_spaced, H.
Qed.

(** *** The shape of a normalised title *)

Lemma skipn_Forall (P : ascii -> Prop) (n : nat) (s : str) :
  Forall P s -> Forall P (skipn n s).
Proof.
  revert s. induction n as [|n IH]; intros s H; [exact H|].
  destruct s; [constructor|]. inversion H; subst. simpl. auto.
Qed.

(** A normalised title holds no capital letter and no punctuation, its
    white space is single blanks, and [strip] leaves it as it is. *)
Lemma normalize_track_shape (x : str) :
  Forall (fun c => Py.isupper c = false) (normalize_track x) /\
  Forall (fun c => Pat.punct c = false) (normalize_track x) /\
  single_spaced (normalize_track x) = true /\
  Py.strip (normalize_track x) = normalize_track x.
Proof.
  unfold normalize_track.
  set (n1 := if Py.startswith (Py.lower x) (py "the ")
             then skipn 4 (Py.lower x) ++ py ", the" else Py.lower x).
  assert (U1 : Forall (fun c => Py.isupper c = false) n1).
  { subst n1. pose proof (lower_not_upper x) as L.
    destruct (Py.startswith (Py.lower x) (py "the ")); [|exact L].
    apply Forall_app. split.
    - apply skipn_Forall, L.
    - repeat constructor. }
  repeat split.
  - apply strip_Forall.
    apply sub_Forall; [repeat constructor|].
    do 3 (apply sub_Forall; [constructor|]).
    do 4 (apply replace_Forall; [constructor|]).
    do 2 (apply replace_Forall; [repeat constructor|]).
    exact U1.
  - apply strip_Forall.
    apply sub_Forall; [repeat constructor|].
    apply sub_punct_clean.
  - apply strip_single_spaced.
    eapply sub_spaces_single_spaced. apply Nat.le_refl.
  - apply strip_idem.
Qed.

Lemma punct_not_paren (c : ascii) : Pat.punct c = false -> not_paren c.
Proof.
  unfold not_paren. intro H.
  destruct c as [[] [] [] [] [] [] [] []];
    first [reflexivity | discriminate H].
Qed.

Lemma strip_starts (s : str) : starts_space (Py.strip s) = false.
Proof. apply rstrip_starts, dropwhile_starts. Qed.

(** C6 (amended). The normaliser is not idempotent in general: a second
    pass rotates a leading "the " again and removes an "edit", a "stripped"
    or an " is a " that the first pass put together.  On every input whose
    normal form does not begin with "the " and holds none of " is a ",
    " is the ", "stripped" and "edit", normalising the normal form gives it
    back. *)
Theorem normalize_track_fixed (x : str) :
  Py.startswith (normalize_track x) (py "the ") = false ->
  Py.contains (py " is a ") (normalize_track x) = false ->
  Py.contains (py " is the ") (normalize_track x) = false ->
  Py.contains (py "stripped") (normalize_track x) = false ->
  Py.contains (py "edit") (normalize_track x) = false ->
  normalize_track (normalize_track x) = normalize_track x.
Proof.
  intros Hthe Ha Hb Hs He.
  destruct (normalize_track_shape x) as (U & Pn & S1 & St).
  assert (NP : Forall not_paren (normalize_track x)).
  { eapply Forall_impl; [|exact Pn]. apply punct_not_paren. }
  set (y := normalize_track x) in *.
  unfold normalize_track.
  rewrite (lower_fixed U), Hthe.
  rewrite (@replace_absent _ (py " is ") y Ha).
  rewrite (@replace_absent _ (py " is ") y Hb).
  assert (Hps : Py.contains (py "(stripped)") y = false)
    by exact (contains_paren_absent (py "stripped)") NP).
  assert (Hpe : Py.contains (py "(edit)") y = false)
    by exact (contains_paren_absent (py "edit)") NP).
  rewrite (@replace_absent _ [] y Hps), (@replace_absent _ [] y Hpe).
  rewrite (@replace_absent _ [] y Hs), (@replace_absent _ [] y He).
  rewrite (@sub_no_match not_paren _ [] with_paren_no_match y NP).
  rewrite (@sub_no_match not_paren _ [] paren_no_match y NP).
  rewrite (sub_punct_fixed Pn), (sub_spaces_fixed _ S1).
  exact St.
Qed.

Lemma normalize_track_fixed_witness :
  normalize_track (normalize_track (py "The Wind"))
  = normalize_track (py "The Wind").
Proof.
  apply normalize_track_fixed; vm_compute; reflexivity.
Defined.

(** "...The End" normalises to "the end", and "the end" to "end the". *)
Lemma normalize_track_not_idempotent :
  normalize_track (py "...The End") = py "the end" /\
  normalize_track (py "the end") = py "end the" /\
  normalize_track (normalize_track (py "...The End"))
  <> normalize_track (py "...The End").
Proof.
  repeat split; try (vm_compute; reflexivity).
  vm_compute. discriminate.
Qed.

(** ** C5: a list against itself *)

Lemma split_from_empty (s : str) : forall cur,
  Py.split_from cur s = [] -> cur = [] /\ starts_space s = false \/
                               cur = [] /\ starts_space s = true.
Proof.
  induction s as [|c s IH]; intros cur H; simpl in H.
  - destruct cur; [left; split; reflexivity | discriminate].
  - simpl. destruct (Py.isspace c) eqn:E.
    + destruct cur; [right; split; reflexivity | discriminate].
    + destruct (IH _ H) as [[Hc _]|[Hc _]]; discriminate.
Qed.

(** A normalised title without words is the empty string. *)
Lemma normalized_no_words (x : str) :
  Py.split (normalize_track x) = [] -> normalize_track x = [].
Proof.
  intro H. destruct (normalize_track_shape x) as (_ & _ & _ & St).
  pose proof (strip_starts (normalize_track x)) as Hs. rewrite St in Hs.
  destruct (normalize_track x) as [|c y]; [reflexivity|].
  unfold Py.split in H. simpl in H, Hs. rewrite Hs in H.
  destruct (split_from_empty _ _ H) as [[Hc _]|[Hc _]]; discriminate.
Qed.

Lemma set_empty (l : list str) : Py.set l = [] -> l = [].
Proof.
  destruct l as [|x l]; [reflexivity|]. intro H.
  assert (Hin : In x (Py.set (x :: l))).
  { unfold Py.set. apply nodup_In. left. reflexivity. }
  rewrite H in Hin. destruct Hin.
Qed.

Lemma intersection_self (l : list str) : Py.intersection l l = l.
Proof.
  unfold Py.intersection. apply forallb_filter_id.
  apply forallb_forall. intros x Hx. apply mem_true, Hx.
Qed.

Lemma common_le_shorter (m o : str) : common_count m o <= shorter_length m o.
Proof.
  unfold common_count, shorter_length, Py.intersection.
  apply Nat.min_glb.
  - apply filter_length_le.
  - apply NoDup_incl_length.
    + apply NoDup_filter. unfold Py.set. apply NoDup_nodup.
    + intros w Hw. apply filter_In in Hw. apply mem_true. tauto.
Qed.

Lemma float_ratio_le_1 (c n : nat) :
  c <= n -> 0 < n -> (float_of_nat c / float_of_nat n <= 1)%Q.
Proof.
  intros Hc Hn. apply Qle_shift_div_r.
  - unfold Qlt, float_of_nat, inject_Z. simpl. lia.
  - unfold Qle, Qmult, float_of_nat, inject_Z. cbn [Qnum Qden]. lia.
Qed.

Lemma float_nonzero (n : nat) : 0 < n -> ~ (float_of_nat n == 0)%Q.
Proof.
  intros Hn H. unfold Qeq, float_of_nat, inject_Z in H. cbn [Qnum Qden] in H.
  lia.
Qed.

Lemma float_ratio_self (n : nat) :
  0 < n -> (float_of_nat n / float_of_nat n == 1)%Q.
Proof. intro Hn. field. apply float_nonzero, Hn. Qed.

Section SelfComparison.
Variable ratio : str -> str -> Q.
Hypothesis ratio_le_one : forall a b, (ratio a b <= 1)%Q.
Hypothesis ratio_empty : (ratio [] [] == 1)%Q.

Lemma title_similarity_le_1 (m o : str) :
  (fst (title_similarity ratio m o) <= 1)%Q.
Proof.
  unfold title_similarity.
  destruct (word_overlap_fires m o) eqn:E.
  - cbn [fst]. apply Q.max_lub; [discriminate|].
    apply word_overlap_iff in E. destruct E as (Hn & _).
    apply float_ratio_le_1; [apply common_le_shorter | exact Hn].
  - destruct (Py.contains m o || Py.contains o m); cbn [fst].
    + apply Q.max_lub; [discriminate | apply ratio_le_one].
    + apply ratio_le_one.
Qed.

(** A normalised title scores 1 against itself. *)
Lemma title_similarity_self (x : str) :
  (fst (title_similarity ratio (normalize_track x) (normalize_track x))
   == 1)%Q.
Proof.
  set (m := normalize_track x).
  destruct (Py.set (Py.split m)) as [|w ws] eqn:Ew.
  - apply set_empty in Ew. apply normalized_no_words in Ew.
    fold m in Ew. rewrite Ew, title_similarity_empty. cbn [fst].
    rewrite ratio_empty. reflexivity.
  - assert (Hc : common_count m m = length (Py.set (Py.split m))).
    { unfold common_count. rewrite intersection_self. reflexivity. }
    assert (Hs : shorter_length m m = length (Py.set (Py.split m))).
    { unfold shorter_length. apply Nat.min_id. }
    assert (Hpos : 0 < length (Py.set (Py.split m))).
    { rewrite Ew. simpl. lia. }
    assert (Hf : word_overlap_fires m m = true).
    { apply word_overlap_iff. rewrite Hc, Hs. lia. }
    unfold title_similarity. rewrite Hf. cbn [fst]. rewrite Hc, Hs.
    rewrite (float_ratio_self Hpos). reflexivity.
Qed.

(** An entry that does not read as a multi-part entry and whose normal
    form is among the candidates has best similarity 1. *)
Lemma best_of_self (t : str) (B : list str) :
  reads_as_multi_part (normalize_track t) = false ->
  In (normalize_track t) (map normalize_track B) ->
  (best_of ratio B t == 1)%Q.
Proof.
  intros Hm Hin. unfold best_of. rewrite find_best_plain by exact Hm.
  cbn [best_match]. rewrite scan_candidates_eq. apply Qle_antisym.
  - apply scan_from_le; [discriminate|].
    intros c _. apply title_similarity_le_1.
  - rewrite <- (title_similarity_self t).
    apply scan_from_ge_each, Hin.
Qed.

Lemma credited_self (t : str) (B : list str) :
  reads_as_multi_part (normalize_track t) = false ->
  In (normalize_track t) (map normalize_track B) ->
  (credited ratio B t == 1)%Q.
Proof.
  intros Hm Hin. pose proof (@best_of_self t B Hm Hin) as Hb.
  unfold credited.
  assert (E : Qle_bool (8 # 10) (best_of ratio B t) = true).
  { apply Qle_bool_iff. rewrite Hb. discriminate. }
  rewrite E. exact Hb.
Qed.
End SelfComparison.

Lemma sum_of_ones (f : str -> Q) (l : list str) :
  (forall t, In t l -> (f t == 1)%Q) ->
  (sum_Q (map f l) == float_of_nat (length l))%Q.
Proof.
  induction l as [|t l IH]; intro H.
  - reflexivity.
  - cbn [map sum_Q fold_right length]. fold (sum_Q (map f l)).
    rewrite (H t (or_introl eq_refl)), IH by (intros; apply H; right; auto).
    unfold float_of_nat. rewrite Nat2Z.inj_succ, <- Z.add_1_l, inject_Z_plus.
    reflexivity.
Qed.

(** C5 (amended). For a non-empty list whose consolidated entries, once
    normalised, do not hold both "with" and "parts" and each have the
    normal form of an entry of the list (as they do when no multi-part
    group forms), the score of the list against itself is 100.  The ratio is
    at most 1 and is 1 on two empty strings. *)
Theorem identical_lists_score_100 ratio (A : list str) :
  (forall a b, (ratio a b <= 1)%Q) ->
  (ratio [] [] == 1)%Q ->
  A <> [] ->
  self_comparable A = true ->
  (calculate_track_similarity ratio A A == 100)%Q.
Proof.
  intros Hle He HA Hself.
  assert (Hone : forall t, In t (processed_metadata_tracks A) ->
                           (credited ratio A t == 1)%Q).
  { intros t Ht. unfold self_comparable in Hself.
    rewrite forallb_forall in Hself. specialize (Hself t Ht).
    apply andb_true_iff in Hself. destruct Hself as [H1 H2].
    apply negb_true_iff in H1. apply mem_true in H2.
    apply credited_self; assumption. }
  assert (Hraw : (raw_percentage ratio A A == 100)%Q).
  { rewrite raw_percentage_sum, (sum_of_ones _ _ Hone).
    assert (Hpos : 0 < length (processed_metadata_tracks A)).
    { pose proof (processed_nonempty HA).
      destruct (processed_metadata_tracks A); [congruence | simpl; lia]. }
    rewrite (float_ratio_self Hpos). reflexivity. }
  rewrite (calculate_unfold ratio HA HA).
  assert (E : Qltb (raw_percentage ratio A A) 80 = false).
  { apply Qltb_false. rewrite Hraw. discriminate. }
  rewrite E, andb_false_r. exact Hraw.
Qed.

Lemma identical_lists_score_100_witness :
  (calculate_track_similarity Difflib.ratio
     [py "Intro"; py "Part 1"; py "The Wind"; py "Edit"]
     [py "Intro"; py "Part 1"; py "The Wind"; py "Edit"] == 100)%Q.
Proof.
  apply identical_lists_score_100.
  - exact ratio_le_1.
  - vm_compute. reflexivity.
  - discriminate.
  - vm_compute. reflexivity.
Defined.

(** "Song with Many Parts" against itself: its normal form holds "with" and
    "parts", is taken for a synthetic entry and scores 0.95. *)
Lemma identical_lists_score_95 :
  reads_as_multi_part (normalize_track (py "Song with Many Parts")) = true /\
  (calculate_track_similarity Difflib.ratio
     [py "Song with Many Parts"] [py "Song with Many Parts"] == 95)%Q /\
  ~ (calculate_track_similarity Difflib.ratio
       [py "Song with Many Parts"] [py "Song with Many Parts"] == 100)%Q.
Proof.
  repeat split; try (vm_compute; reflexivity).
  intro H. vm_compute in H. discriminate H.
Qed.

(** ** The scenarios of the specification, evaluated *)

Example normalize_the_wind : normalize_track (py "The Wind") = py "wind the".
Proof. vm_compute. reflexivity. Qed.

Example normalize_remastered :
  normalize_track (py "A Love Song (Remastered)") = py "a love song".
Proof. vm_compute. reflexivity. Qed.

Example normalize_edit : normalize_track (py "Edit") = [].
Proof. vm_compute. reflexivity. Qed.

Example content_field_split :
  extract_tracks_from_oclc
    (sample_record (py "123") (py "Song A -- Song B (3:45).")) (py "123")
  = [py "Song A"; py "Song B"].
Proof. vm_compute. reflexivity. Qed.

Example love_song_scores_100 :
  (calculate_track_similarity Difflib.ratio
     [py "Love Song"] [py "A Love Song (Remastered)"] == 100)%Q /\
  map symbol (matched_tracks Difflib.ratio
                [py "Love Song"] [py "A Love Song (Remastered)"])
  = [TickSubstring].
Proof. split; vm_compute; reflexivity. Qed.

Example the_wind_scores_1 :
  (best_of Difflib.ratio [py "Wind"] (py "The Wind") == 1)%Q.
Proof. vm_compute. reflexivity. Qed.

Example matching_characters :
  Difflib.matches (py "abc") (py "abd") = 2 /\
  Difflib.matches (py "part 2") (py "intro") = 1 /\
  Difflib.matches (py "tide") (py "diet") = 1 /\
  Difflib.matches (py "diet") (py "tide") = 2.
Proof. repeat split; vm_compute; reflexivity. Qed.

(** * Further properties *)

(** ** The best match is the first maximum *)

Section Argmax.
Variable sim : str -> Q * bool.

(** What the loop over the candidates computes: either no candidate
    exceeds the similarity held at the start, or the result is the first of
    the candidates of greatest similarity. *)
Lemma scan_from_spec : forall l start b j f,
  (fst (fst (scan_from sim start (b, j, f) l)) = b /\
   snd (fst (scan_from sim start (b, j, f) l)) = j /\
   forall c, In c l -> (fst (sim c) <= b)%Q) \/
  (exists i, i < length l /\
     snd (fst (scan_from sim start (b, j, f) l)) = Z.of_nat (start + i) /\
     fst (fst (scan_from sim start (b, j, f) l)) = fst (sim (nth i l [])) /\
     (b < fst (sim (nth i l [])))%Q /\
     (forall c, In c l -> (fst (sim c) <= fst (sim (nth i l [])))%Q) /\
     (forall i', i' < i ->
                 (fst (sim (nth i' l [])) < fst (sim (nth i l [])))%Q)).
Proof.
  induction l as [|c l IH]; intros start b j f.
  - left. repeat split. intros c [].
  - rewrite scan_from_cons. unfold candidate_step.
    destruct (sim c) as [s r] eqn:Ec. destruct (Qltb b s) eqn:E.
    + apply Qltb_true in E.
      destruct (IH (S start) s (Z.of_nat start) (f || r))
        as [(Hb & Hj & Hall)|(i & Hi & Hj & Hb & Hlt & Hall & Hfirst)].
      * right. exists 0. cbn [nth length]. rewrite Ec. cbn [fst].
        rewrite Nat.add_0_r.
        split; [lia|]. split; [exact Hj|]. split; [exact Hb|].
        split; [exact E|]. split.
        -- intros d [<-|Hd]; [rewrite Ec; apply Qle_refl | apply Hall, Hd].
        -- intros i' Hi'. lia.
      * right. exists (S i). cbn [nth length].
        replace (start + S i) with (S start + i) by lia.
        split; [lia|]. split; [exact Hj|]. split; [exact Hb|].
        split; [eapply Qlt_trans; eassumption|]. split.
        -- intros d [<-|Hd]; [rewrite Ec; apply Qlt_le_weak, Hlt
                             | apply Hall, Hd].
        -- intros [|i'] Hi'; cbn [nth];
             [rewrite Ec; exact Hlt | apply Hfirst; lia].
    + apply Qltb_false in E.
      destruct (IH (S start) b j (f || r))
        as [(Hb & Hj & Hall)|(i & Hi & Hj & Hb & Hlt & Hall & Hfirst)].
      * left. split; [exact Hb|]. split; [exact Hj|].
        intros d [<-|Hd]; [rewrite Ec; exact E | apply Hall, Hd].
      * right. exists (S i). cbn [nth length].
        replace (start + S i) with (S start + i) by lia.
        split; [lia|]. split; [exact Hj|]. split; [exact Hb|].
        split; [exact Hlt|]. split.
        -- intros d [<-|Hd]; [rewrite Ec; cbn [fst] | apply Hall, Hd].
           eapply Qle_trans; [exact E | apply Qlt_le_weak, Hlt].
        -- intros [|i'] Hi'; cbn [nth]; [rewrite Ec; cbn [fst]
                                        | apply Hfirst; lia].
           eapply Qle_lt_trans; eassumption.
Qed.
End Argmax.

Lemma find_best_entry ratio (m : str) (l : list str) :
  best_match (find_best ratio m l)
  = fst (fst (scan_candidates (entry_similarity ratio m) l)) /\
  best_match_index (find_best ratio m l)
  = snd (fst (scan_candidates (entry_similarity ratio m) l)) /\
  is_part_match (find_best ratio m l)
  = reads_as_multi_part m &&
    snd (scan_candidates (entry_similarity ratio m) l) /\
  is_substring_match (find_best ratio m l)
  = negb (reads_as_multi_part m) &&
    snd (scan_candidates (entry_similarity ratio m) l).
Proof.
  unfold find_best, entry_similarity.
  destruct (reads_as_multi_part m).
  - destruct (scan_candidates
                (part_similarity ratio (Re.sub Pat.with_parts_re [] m)) l)
      as [[b j] f]. repeat split.
  - destruct (scan_candidates (title_similarity ratio m) l) as [[b j] f].
    repeat split.
Qed.

Lemma find_best_spec ratio (m : str) (l : list str) :
  (best_match_index (find_best ratio m l) = (-1)%Z /\
   best_match (find_best ratio m l) = 0%Q /\
   forall c, In c l -> (fst (entry_similarity ratio m c) <= 0)%Q) \/
  (exists i, i < length l /\
     best_match_index (find_best ratio m l) = Z.of_nat i /\
     best_match (find_best ratio m l)
     = fst (entry_similarity ratio m (nth i l [])) /\
     (0 < best_match (find_best ratio m l))%Q /\
     (forall c, In c l ->
        (fst (entry_similarity ratio m c)
         <= best_match (find_best ratio m l))%Q) /\
     (forall i', i' < i ->
        (fst (entry_similarity ratio m (nth i' l []))
         < best_match (find_best ratio m l))%Q)).
Proof.
  destruct (find_best_entry ratio m l) as (Hb & Hj & _ & _).
  rewrite Hb, Hj, scan_candidates_eq.
  destruct (scan_from_spec (entry_similarity ratio m) l 0 0%Q (-1)%Z false)
    as [(H1 & H2 & H3)|(i & Hi & H1 & H2 & H3 & H4 & H5)].
  - left. repeat split; assumption.
  - right. exists i. rewrite H2. repeat split; assumption.
Qed.

(** X1. The best match of an entry.  Either no candidate has a positive
    similarity, and then the index stays -1 and the best similarity 0; or
    the index is that of a candidate, the best similarity is that
    candidate's, it is positive and the greatest of all candidates, and
    every earlier candidate has a strictly smaller one. *)
Theorem best_match_is_first_maximum ratio (m : str) (l : list str) :
  (best_match_index (find_best ratio m l) = (-1)%Z /\
   best_match (find_best ratio m l) = 0%Q /\
   forall c, In c l -> (fst (entry_similarity ratio m c) <= 0)%Q) \/
  (exists i, i < length l /\
     best_match_index (find_best ratio m l) = Z.of_nat i /\
     best_match (find_best ratio m l)
     = fst (entry_similarity ratio m (nth i l [])) /\
     (0 < best_match (find_best ratio m l))%Q /\
     (forall c, In c l ->
        (fst (entry_similarity ratio m c)
         <= best_match (find_best ratio m l))%Q) /\
     (forall i', i' < i ->
        (fst (entry_similarity ratio m (nth i' l []))
         < best_match (find_best ratio m l))%Q)).
Proof. apply find_best_spec. Qed.

(** ** The report *)

Lemma combine_seq_In (A : Type) (d : A) : forall (l : list A) start i x,
  In (i, x) (combine (seq start (length l)) l) ->
  start <= i /\ i - start < length l /\ nth (i - start) l d = x.
Proof.
  induction l as [|y l IH]; intros start i x H; cbn in H.
  - destruct H.
  - destruct H as [H|H].
    + injection H as <- <-. rewrite Nat.sub_diag. simpl. repeat split; lia.
    + apply IH in H. destruct H as (H1 & H2 & H3).
      replace (i - start) with (S (i - S start)) by lia.
      simpl. repeat split; [lia | lia | exact H3].
Qed.

Lemma enumerate_In (A : Type) (d : A) (l : list A) i x :
  In (i, x) (enumerate l) -> i < length l /\ nth i l d = x.
Proof.
  intro H. apply (combine_seq_In d) in H. rewrite Nat.sub_0_r in H. tauto.
Qed.

Lemma combine_seq_fst (A : Type) : forall (l : list A) start,
  map fst (combine (seq start (length l)) l) = seq start (length l).
Proof.
  induction l as [|y l IH]; intro start; cbn; [reflexivity|].
  rewrite IH. reflexivity.
Qed.

Lemma combine_seq_snd (A : Type) : forall (l : list A) start,
  map snd (combine (seq start (length l)) l) = l.
Proof.
  induction l as [|y l IH]; intro start; cbn; [reflexivity|].
  rewrite IH. reflexivity.
Qed.

(** The line of the report for the entry of index [i]. *)
Lemma match_loop_trace_from ratio (processed B : list str) :
  forall l start acc tr,
  snd (fold_left (match_step ratio processed B)
         (combine (seq start (length (map normalize_track l)))
                  (map normalize_track l))
         (acc, tr))
  = tr ++
    map (fun it =>
           report_line (fst it) (nth (fst it) processed []) B
             (find_best ratio (normalize_track (snd it))
                        (map normalize_track B)))
        (combine (seq start (length l)) l).
Proof.
  induction l as [|t l IH]; intros start acc tr.
  - simpl. rewrite app_nil_r. reflexivity.
  - cbn [map length seq combine fold_left]. unfold match_step at 2.
    cbn [fst snd].
    destruct (Qle_bool (8 # 10)
                (best_match (find_best ratio (normalize_track t)
                               (map normalize_track B))));
      rewrite IH, <- app_assoc; reflexivity.
Qed.

Lemma matched_tracks_eq ratio (A B : list str) :
  A <> [] -> B <> [] ->
  matched_tracks ratio A B =
  map (fun it =>
         report_line (fst it) (snd it) B
           (find_best ratio (normalize_track (snd it))
                      (map normalize_track B)))
      (enumerate (processed_metadata_tracks A)).
Proof.
  intros HA HB. unfold matched_tracks.
  destruct A as [|a A]; [congruence|]. destruct B as [|b B]; [congruence|].
  cbn [truthy negb orb]. unfold match_loop, enumerate.
  rewrite match_loop_trace_from. cbn [app].
  apply map_ext_in. intros [i t] Hin. cbn [fst snd].
  apply (combine_seq_In ([] : str)) in Hin. rewrite Nat.sub_0_r in Hin.
  destruct Hin as (_ & _ & E). rewrite E. reflexivity.
Qed.

Lemma report_line_fields i orig B r :
  position (report_line i orig B r) = i + 1 /\
  orig_track (report_line i orig B r) = orig /\
  score (report_line i orig B r) = best_match r.
Proof.
  unfold report_line. destruct (Qle_bool (8 # 10) (best_match r));
    repeat split.
Qed.

(** X2. The report has one line per consolidated entry, in order: its
    titles are the consolidated list and its numbers run from 1. *)
Theorem report_follows_consolidated_list ratio (A B : list str) :
  A <> [] -> B <> [] ->
  map orig_track (matched_tracks ratio A B) = processed_metadata_tracks A /\
  map position (matched_tracks ratio A B)
  = seq 1 (length (processed_metadata_tracks A)) /\
  map score (matched_tracks ratio A B)
  = map (best_of ratio B) (processed_metadata_tracks A).
Proof.
  intros HA HB. rewrite (matched_tracks_eq ratio HA HB), !map_map.
  unfold enumerate. split; [|split].
  - erewrite map_ext; [apply combine_seq_snd|].
    intros [i t]. apply report_line_fields.
  - assert (E : map (fun it : nat * str => S (fst it))
                    (combine (seq 0 (length (processed_metadata_tracks A)))
                             (processed_metadata_tracks A))
                = seq 1 (length (processed_metadata_tracks A))).
    { rewrite <- (map_map fst S), combine_seq_fst, seq_shift. reflexivity. }
    rewrite <- E. apply map_ext. intros [i t]. cbn [fst snd].
    destruct (report_line_fields i t B
                (find_best ratio (normalize_track t)
                           (map normalize_track B))) as (-> & _).
    lia.
  - rewrite <- (combine_seq_snd (processed_metadata_tracks A) 0) at 3.
    rewrite map_map. apply map_ext. intros [i t]. cbn [fst snd].
    destruct (report_line_fields i t B
                (find_best ratio (normalize_track t)
                           (map normalize_track B))) as (_ & _ & ->).
    reflexivity.
Qed.

Lemma report_follows_consolidated_list_witness :
  map orig_track
      (matched_tracks Difflib.ratio
         [py "Intro"; py "Part 1"; py "Outro"] [py "Intro"; py "Outro"])
  = processed_metadata_tracks [py "Intro"; py "Part 1"; py "Outro"] /\
  map position
      (matched_tracks Difflib.ratio
         [py "Intro"; py "Part 1"; py "Outro"] [py "Intro"; py "Outro"])
  = seq 1 (length (processed_metadata_tracks
                     [py "Intro"; py "Part 1"; py "Outro"])) /\
  map score
      (matched_tracks Difflib.ratio
         [py "Intro"; py "Part 1"; py "Outro"] [py "Intro"; py "Outro"])
  = map (best_of Difflib.ratio [py "Intro"; py "Outro"])
        (processed_metadata_tracks [py "Intro"; py "Part 1"; py "Outro"]).
Proof.
  apply report_follows_consolidated_list; discriminate.
Defined.

(** X3. Every line of the report is sound: it carries a tick exactly when
    its score reaches 0.8; a counterpart it names is a title of the
    catalogue list (the index -1 is never used to read the list); a line
    without counterpart is a cross of score 0; and the multi-part tick is
    given only to a title whose normal form holds "with" and "parts", the
    substring tick only to one whose normal form does not. *)
Theorem report_line_sound ratio (A B : list str) (line : match_info) :
  In line (matched_tracks ratio A B) ->
  ticked (symbol line) = Qle_bool (8 # 10) (score line) /\
  (forall c, counterpart line = Some c -> In c B) /\
  (counterpart line = None -> symbol line = Cross /\ score line = 0%Q) /\
  (symbol line = TickMultiPart ->
   reads_as_multi_part (normalize_track (orig_track line)) = true) /\
  (symbol line = TickSubstring ->
   reads_as_multi_part (normalize_track (orig_track line)) = false).
Proof.
  intro Hin.
  assert (HA : A <> []).
  { intro E. subst A. destruct Hin. }
  assert (HB : B <> []).
  { intro E. subst B. unfold matched_tracks in Hin.
    rewrite orb_true_r in Hin. destruct Hin. }
  rewrite (matched_tracks_eq ratio HA HB) in Hin.
  apply in_map_iff in Hin. destruct Hin as ([i t] & <- & _). cbn [fst snd].
  pose proof (find_best_entry ratio (normalize_track t)
                (map normalize_track B)) as (_ & _ & Hp & Hs).
  pose proof (find_best_spec ratio (normalize_track t)
                (map normalize_track B)) as Hspec.
  set (r := find_best ratio (normalize_track t) (map normalize_track B)) in *.
  assert (Hidx : forall i', best_match_index r = Z.of_nat i' ->
                            i' < length (map normalize_track B) ->
                            In (nth (Z.to_nat (best_match_index r)) B []) B).
  { intros i' E Hi'. rewrite E, Nat2Z.id. apply nth_In.
    rewrite length_map in Hi'. exact Hi'. }
  destruct Hspec as [(Hj & Hb & _)|(i' & Hi' & Hj & _ & Hpos & _)].
  - (* no candidate was chosen *)
    unfold report_line. rewrite Hb, Hj.
    change (Qle_bool (8 # 10) 0) with false. cbn.
    repeat split; discriminate.
  - unfold report_line.
    destruct (Qle_bool (8 # 10) (best_match r)) eqn:E;
      cbn [symbol counterpart score orig_track].
    + rewrite E. split; [|split; [|split; [|split]]].
      * destruct (is_part_match r); [reflexivity|].
        destruct (is_substring_match r); reflexivity.
      * intros c Hc. injection Hc as <-. eapply Hidx; eassumption.
      * discriminate.
      * intro H. destruct (is_part_match r) eqn:Ep.
        -- symmetry in Hp. apply andb_true_iff in Hp. tauto.
        -- destruct (is_substring_match r); discriminate.
      * intro H. destruct (is_part_match r) eqn:Ep; [discriminate|].
        destruct (is_substring_match r) eqn:Es; [|discriminate].
        symmetry in Hs. apply andb_true_iff in Hs.
        destruct Hs as [Hs _]. apply negb_true_iff in Hs. exact Hs.
    + rewrite E, Hj.
      assert (Ez : (0 <=? Z.of_nat i')%Z = true) by (apply Z.leb_le; lia).
      rewrite Ez. split; [reflexivity|]. split; [|split; [|split]].
      * intros c Hc. injection Hc as <-. rewrite <- Hj.
        eapply Hidx; eassumption.
      * discriminate.
      * discriminate.
      * discriminate.
Qed.

Lemma report_line_sound_witness :
  let line :=
    hd (MatchInfo 0 [] Cross None 0)
       (matched_tracks Difflib.ratio [py "Intro"; py "Part 1"] [py "Intro"])
  in
  ticked (symbol line) = Qle_bool (8 # 10) (score line) /\
  (forall c, counterpart line = Some c -> In c [py "Intro"]) /\
  (counterpart line = None -> symbol line = Cross /\ score line = 0%Q) /\
  (symbol line = TickMultiPart ->
   reads_as_multi_part (normalize_track (orig_track line)) = true) /\
  (symbol line = TickSubstring ->
   reads_as_multi_part (normalize_track (orig_track line)) = false).
Proof.
  apply (@report_line_sound Difflib.ratio [py "Intro"; py "Part 1"]
           [py "Intro"]).
  vm_compute. left. reflexivity.
Defined.

(** ** The value of the score *)

Lemma calculate_with_bonus ratio (A B : list str) :
  A <> [] -> B <> [] ->
  calculate_track_similarity ratio A B
  = with_bonus (truthy (multi_part_groups A)) (raw_percentage ratio A B).
Proof. intros HA HB. rewrite (calculate_unfold ratio HA HB). reflexivity. Qed.

Lemma with_bonus_mono (g : bool) (p q : Q) :
  (p <= q)%Q -> (with_bonus g p <= with_bonus g q)%Q.
Proof.
  intro H. unfold with_bonus. destruct g; cbn [andb]; [|exact H].
  destruct (Qltb p 80) eqn:Ep; destruct (Qltb q 80) eqn:Eq.
  - apply Q.min_le_compat_l. apply Qplus_le_l. exact H.
  - apply Qltb_false in Eq. eapply Qle_trans; [apply Q.le_min_l | exact Eq].
  - apply Qltb_false in Ep. apply Qltb_true in Eq. exfalso.
    apply (Qlt_irrefl 80). eapply Qle_lt_trans; [exact Ep|].
    eapply Qle_lt_trans; eassumption.
  - exact H.
Qed.

Lemma with_bonus_compat (g : bool) (p q : Q) :
  (p == q)%Q -> (with_bonus g p == with_bonus g q)%Q.
Proof.
  intro H. apply Qle_antisym; apply with_bonus_mono; rewrite H;
    apply Qle_refl.
Qed.

Lemma with_bonus_bounds (g : bool) (p : Q) :
  (0 <= p)%Q -> (p <= 100)%Q ->
  (p <= with_bonus g p)%Q /\ (with_bonus g p <= 100)%Q.
Proof.
  intros H0 H1. unfold with_bonus. destruct g; cbn [andb];
    [|split; [apply Qle_refl | exact H1]].
  destruct (Qltb p 80) eqn:E; [|split; [apply Qle_refl | exact H1]].
  apply Qltb_true in E. split.
  - apply Q.min_glb; [apply Qlt_le_weak, E|].
    rewrite <- (Qplus_0_r p) at 1. apply Qplus_le_r. discriminate.
  - eapply Qle_trans; [apply Q.le_min_l | discriminate].
Qed.

Lemma credited_nonneg ratio (B : list str) (t : str) :
  (0 <= credited ratio B t)%Q.
Proof.
  unfold credited.
  destruct (Qle_bool (8 # 10) (best_of ratio B t)) eqn:E; [|apply Qle_refl].
  apply Qle_bool_iff in E. eapply Qle_trans; [|exact E]. discriminate.
Qed.

Lemma credited_le_best ratio (B : list str) (t : str) :
  (0 <= best_of ratio B t)%Q -> (credited ratio B t <= best_of ratio B t)%Q.
Proof.
  intro H. unfold credited.
  destruct (Qle_bool (8 # 10) (best_of ratio B t)); [apply Qle_refl | exact H].
Qed.

Lemma sum_Q_mono (f g : str -> Q) (l : list str) :
  (forall t, In t l -> (f t <= g t)%Q) ->
  (sum_Q (map f l) <= sum_Q (map g l))%Q.
Proof.
  induction l as [|t l IH]; intro H; cbn [map sum_Q fold_right].
  - apply Qle_refl.
  - apply Qplus_le_compat; [apply H; left; reflexivity|].
    apply IH. intros; apply H; right; assumption.
Qed.

Lemma sum_Q_const (c : Q) (l : list str) :
  (sum_Q (map (fun _ => c) l) == float_of_nat (length l) * c)%Q.
Proof.
  induction l as [|t l IH]; cbn [map sum_Q fold_right length].
  - unfold float_of_nat. simpl. ring.
  - fold (sum_Q (map (fun _ : str => c) l)). rewrite IH.
    unfold float_of_nat. rewrite Nat2Z.inj_succ, <- Z.add_1_l, inject_Z_plus.
    ring.
Qed.

(** [x / n * 100] grows with [x]. *)
Lemma percentage_mono (n : nat) (x y : Q) :
  (x <= y)%Q ->
  (x / float_of_nat n * 100 <= y / float_of_nat n * 100)%Q.
Proof.
  intro H. apply Qmult_le_compat_r; [|discriminate].
  unfold Qdiv. apply Qmult_le_compat_r; [exact H|].
  apply Qinv_le_0_compat. unfold Qle, float_of_nat, inject_Z. simpl. lia.
Qed.

Lemma best_of_spec ratio (B : list str) (t : str) :
  (best_of ratio B t = 0%Q /\
   forall c, In c (map normalize_track B) ->
             (fst (entry_similarity ratio (normalize_track t) c) <= 0)%Q) \/
  ((0 < best_of ratio B t)%Q /\
   (exists c, In c (map normalize_track B) /\
              best_of ratio B t
              = fst (entry_similarity ratio (normalize_track t) c)) /\
   forall c, In c (map normalize_track B) ->
             (fst (entry_similarity ratio (normalize_track t) c)
              <= best_of ratio B t)%Q).
Proof.
  unfold best_of.
  destruct (find_best_spec ratio (normalize_track t) (map normalize_track B))
    as [(_ & Hb & Hall)|(i & Hi & _ & Hb & Hpos & Hall & _)].
  - left. split; assumption.
  - right. split; [exact Hpos|]. split; [|exact Hall].
    exists (nth i (map normalize_track B) []). split; [|exact Hb].
    apply nth_In, Hi.
Qed.

Lemma best_of_nonneg ratio (B : list str) (t : str) :
  (0 <= best_of ratio B t)%Q.
Proof.
  destruct (best_of_spec ratio B t) as [(-> & _)|(H & _)];
    [apply Qle_refl | apply Qlt_le_weak, H].
Qed.

(** The best similarity grows with the set of normalised catalogue
    titles. *)
Lemma best_of_incl ratio (B B' : list str) (t : str) :
  incl (map normalize_track B) (map normalize_track B') ->
  (best_of ratio B t <= best_of ratio B' t)%Q.
Proof.
  intro Hincl.
  destruct (best_of_spec ratio B t) as [(-> & _)|(_ & (c & Hc & ->) & _)].
  - apply best_of_nonneg.
  - apply Hincl in Hc.
    destruct (best_of_spec ratio B' t) as [(-> & Hall)|(_ & _ & Hall)];
      apply Hall, Hc.
Qed.

Lemma credited_incl ratio (B B' : list str) (t : str) :
  incl (map normalize_track B) (map normalize_track B') ->
  (credited ratio B t <= credited ratio B' t)%Q.
Proof.
  intro Hincl. pose proof (@best_of_incl ratio B B' t Hincl) as H.
  unfold credited.
  destruct (Qle_bool (8 # 10) (best_of ratio B t)) eqn:E.
  - apply Qle_bool_iff in E.
    assert (E' : Qle_bool (8 # 10) (best_of ratio B' t) = true).
    { apply Qle_bool_iff. eapply Qle_trans; eassumption. }
    rewrite E'. exact H.
  - fold (credited ratio B' t). apply credited_nonneg.
Qed.

Lemma raw_percentage_incl ratio (A B B' : list str) :
  incl (map normalize_track B) (map normalize_track B') ->
  (raw_percentage ratio A B <= raw_percentage ratio A B')%Q.
Proof.
  intro Hincl. rewrite !raw_percentage_sum. apply percentage_mono.
  apply sum_Q_mono. intros t _. apply credited_incl, Hincl.
Qed.

Lemma raw_percentage_nonneg ratio (A B : list str) :
  (0 <= raw_percentage ratio A B)%Q.
Proof.
  rewrite raw_percentage_sum.
  assert (H : (0 / float_of_nat (length (processed_metadata_tracks A)) * 100
               == 0)%Q).
  { unfold Qdiv. ring. }
  rewrite <- H at 1. apply percentage_mono.
  assert (H0 : (sum_Q (map (fun _ : str => 0%Q) (processed_metadata_tracks A))
                == 0)%Q).
  { rewrite sum_Q_const. ring. }
  rewrite <- H0. apply sum_Q_mono. intros t _. apply credited_nonneg.
Qed.

Lemma calculate_nonneg ratio (A B : list str) :
  (0 <= calculate_track_similarity ratio A B)%Q.
Proof.
  destruct A as [|a A]; [apply Qle_refl|].
  destruct B as [|b B]; [apply Qle_refl|].
  rewrite calculate_with_bonus by discriminate.
  pose proof (raw_percentage_nonneg ratio (a :: A) (b :: B)) as H.
  unfold with_bonus.
  destruct (truthy (multi_part_groups (a :: A)) &&
            Qltb (raw_percentage ratio (a :: A) (b :: B)) 80); [|exact H].
  apply Q.min_glb; [discriminate|].
  eapply Qle_trans; [exact H|].
  rewrite <- (Qplus_0_r (raw_percentage ratio (a :: A) (b :: B))) at 1.
  apply Qplus_le_r. discriminate.
Qed.

Lemma calculate_incl ratio (A B B' : list str) :
  incl (map normalize_track B) (map normalize_track B') ->
  (calculate_track_similarity ratio A B
   <= calculate_track_similarity ratio A B')%Q.
Proof.
  intro Hincl.
  destruct A as [|a A]; [apply Qle_refl|].
  destruct B as [|b B]; [apply calculate_nonneg|].
  destruct B' as [|b' B'].
  { exfalso. apply (Hincl (normalize_track b)). left. reflexivity. }
  rewrite !calculate_with_bonus by discriminate.
  apply with_bonus_mono, raw_percentage_incl, Hincl.
Qed.

Lemma incl_forallb (l l' : list str) :
  forallb (fun c => Py.mem c l') l = true -> incl l l'.
Proof.
  intros H c Hc. rewrite forallb_forall in H. apply mem_true, H, Hc.
Qed.

(** X4. Adding titles to the catalogue list never lowers the score: when
    every normalised title of [B] is a normalised title of [B'], the score
    of [A] against [B'] is at least its score against [B]. *)
Theorem more_catalogue_titles_never_lower_the_score ratio (A B B' : list str) :
  incl (map normalize_track B) (map normalize_track B') ->
  (calculate_track_similarity ratio A B
   <= calculate_track_similarity ratio A B')%Q.
Proof. apply calculate_incl. Qed.

Lemma more_catalogue_titles_never_lower_the_score_witness :
  (calculate_track_similarity Difflib.ratio
     [py "Love Song"; py "Blue"] [py "A Love Song"]
   <= calculate_track_similarity Difflib.ratio
        [py "Love Song"; py "Blue"] [py "BLUE."; py "A love song!"])%Q.
Proof.
  apply more_catalogue_titles_never_lower_the_score.
  apply incl_forallb. vm_compute. reflexivity.
Defined.

(** X5. The score depends on the catalogue list only through the set of
    its normalised titles: the order of the catalogue titles, repeated
    titles, and their case and punctuation do not change it. *)
Theorem score_depends_on_normalised_catalogue_set ratio (A B B' : list str) :
  (forall c, In c (map normalize_track B) <-> In c (map normalize_track B')) ->
  (calculate_track_similarity ratio A B
   == calculate_track_similarity ratio A B')%Q.
Proof.
  intro H. apply Qle_antisym; apply calculate_incl; intros c Hc; apply H, Hc.
Qed.

Lemma score_depends_on_normalised_catalogue_set_witness :
  (calculate_track_similarity Difflib.ratio
     [py "Love Song"; py "Blue"] [py "A Love Song"; py "Blue"]
   == calculate_track_similarity Difflib.ratio
        [py "Love Song"; py "Blue"]
        [py "BLUE."; py "A love song!"; py "blue"])%Q.
Proof.
  apply score_depends_on_normalised_catalogue_set.
  intro c. split; apply incl_forallb; vm_compute; reflexivity.
Defined.

Section Range.
Variable ratio : str -> str -> Q.
Hypothesis ratio_le_one : forall a b, (ratio a b <= 1)%Q.

Lemma entry_similarity_le_1 (m c : str) :
  (fst (entry_similarity ratio m c) <= 1)%Q.
Proof.
  unfold entry_similarity. destruct (reads_as_multi_part m).
  - unfold part_similarity.
    destruct (Py.contains (Re.sub Pat.with_parts_re [] m) c ||
              Py.contains c (Re.sub Pat.with_parts_re [] m)); cbn [fst];
      [discriminate | apply ratio_le_one].
  - apply title_similarity_le_1. exact ratio_le_one.
Qed.

Lemma best_of_le_1 (B : list str) (t : str) : (best_of ratio B t <= 1)%Q.
Proof.
  destruct (best_of_spec ratio B t) as [(-> & _)|(_ & (c & _ & ->) & _)];
    [discriminate | apply entry_similarity_le_1].
Qed.

Lemma raw_percentage_le_100 (A B : list str) :
  A <> [] -> (raw_percentage ratio A B <= 100)%Q.
Proof.
  intro HA. rewrite raw_percentage_sum.
  pose proof (processed_nonempty HA) as Hp.
  assert (Hpos : 0 < length (processed_metadata_tracks A)).
  { destruct (processed_metadata_tracks A); [congruence | simpl; lia]. }
  assert (H1 : (float_of_nat (length (processed_metadata_tracks A))
                / float_of_nat (length (processed_metadata_tracks A)) * 100
                == 100)%Q).
  { rewrite (float_ratio_self Hpos). reflexivity. }
  rewrite <- H1 at 2. apply percentage_mono.
  assert (H2 : (sum_Q (map (fun _ : str => 1%Q) (processed_metadata_tracks A))
                == float_of_nat (length (processed_metadata_tracks A)))%Q).
  { rewrite sum_Q_const. ring. }
  rewrite <- H2. apply sum_Q_mono. intros t _.
  eapply Qle_trans; [apply credited_le_best, best_of_nonneg|].
  apply best_of_le_1.
Qed.
End Range.

(** X6. The score lies between 0 and 100, for a ratio that is at most 1;
    so does the best similarity of every entry, between 0 and 1. *)
Theorem score_between_0_and_100 ratio (A B : list str) :
  (forall a b, (ratio a b <= 1)%Q) ->
  (0 <= calculate_track_similarity ratio A B)%Q /\
  (calculate_track_similarity ratio A B <= 100)%Q /\
  (forall t, (0 <= best_of ratio B t)%Q /\ (best_of ratio B t <= 1)%Q).
Proof.
  intro Hle. split; [apply calculate_nonneg|]. split.
  - destruct A as [|a A]; [discriminate|].
    destruct B as [|b B]; [discriminate|].
    rewrite calculate_with_bonus by discriminate.
    apply with_bonus_bounds.
    + apply raw_percentage_nonneg.
    + apply raw_percentage_le_100; [exact Hle | discriminate].
  - intro t. split; [apply best_of_nonneg | apply best_of_le_1, Hle].
Qed.

Lemma score_between_0_and_100_witness :
  (0 <= calculate_track_similarity Difflib.ratio
          [py "Intro"; py "Part 1"; py "Blue"] [py "Green"; py "Intro"])%Q /\
  (calculate_track_similarity Difflib.ratio
     [py "Intro"; py "Part 1"; py "Blue"] [py "Green"; py "Intro"] <= 100)%Q /\
  (forall t, (0 <= best_of Difflib.ratio [py "Green"; py "Intro"] t)%Q /\
             (best_of Difflib.ratio [py "Green"; py "Intro"] t <= 1)%Q).
Proof.
  apply score_between_0_and_100. exact ratio_le_1.
Defined.

(** X7. With a multi-part group the score of two non-empty lists is never
    below 10; and when no consolidated entry reaches 0.8 the score is
    exactly 10 with a group and 0 without. *)
Theorem unmatched_lists_score ratio (A B : list str) :
  A <> [] -> B <> [] ->
  (multi_part_groups A <> [] ->
   (10 <= calculate_track_similarity ratio A B)%Q) /\
  ((forall t, In t (processed_metadata_tracks A) ->
              (best_of ratio B t < 8 # 10)%Q) ->
   (calculate_track_similarity ratio A B
    == if truthy (multi_part_groups A) then 10 else 0)%Q).
Proof.
  intros HA HB. rewrite (calculate_with_bonus ratio HA HB). split.
  - intro Hg. destruct (multi_part_groups A) as [|g gs]; [congruence|].
    pose proof (raw_percentage_nonneg ratio A B) as H0.
    unfold with_bonus. cbn [truthy andb].
    destruct (Qltb (raw_percentage ratio A B) 80) eqn:E.
    + apply Q.min_glb; [discriminate|].
      rewrite <- (Qplus_0_l 10) at 1. apply Qplus_le_l. exact H0.
    + apply Qltb_false in E. eapply Qle_trans; [|exact E]. discriminate.
  - intro Hlow.
    assert (Hraw : (raw_percentage ratio A B == 0)%Q).
    { rewrite raw_percentage_sum.
      assert (Hs : (sum_Q (map (credited ratio B)
                              (processed_metadata_tracks A)) == 0)%Q).
      { apply Qle_antisym.
        - assert (H0 : (sum_Q (map (fun _ : str => 0%Q)
                                  (processed_metadata_tracks A)) == 0)%Q).
          { rewrite sum_Q_const. ring. }
          rewrite <- H0. apply sum_Q_mono. intros t Ht. unfold credited.
          apply Hlow, Qle_bool_false in Ht. rewrite Ht. apply Qle_refl.
        - assert (H0 : (sum_Q (map (fun _ : str => 0%Q)
                                  (processed_metadata_tracks A)) == 0)%Q).
          { rewrite sum_Q_const. ring. }
          rewrite <- H0 at 1. apply sum_Q_mono. intros t _.
          apply credited_nonneg. }
      rewrite Hs. unfold Qdiv. ring. }
    rewrite (with_bonus_compat _ Hraw). unfold with_bonus.
    destruct (truthy (multi_part_groups A)); reflexivity.
Qed.

Lemma unmatched_lists_score_witness :
  (calculate_track_similarity Difflib.ratio
     [py "Intro"; py "Part 1"] [py "Something Else"] == 10)%Q.
Proof.
  refine (proj2 (@unmatched_lists_score Difflib.ratio
            [py "Intro"; py "Part 1"] [py "Something Else"] _ _) _).
  - discriminate.
  - discriminate.
  - intros t Ht. vm_compute in Ht. destruct Ht as [<-|[]].
    vm_compute. reflexivity.
Defined.

(** ** The consolidation of multi-part works *)

Lemma fold_left_invariant (A S : Type) (P : S -> Prop) (f : S -> A -> S)
      (l : list A) (init : S) :
  P init ->
  (forall acc x, In x l -> P acc -> P (f acc x)) ->
  P (fold_left f l init).
Proof.
  revert init. induction l as [|x l IH]; intros init H0 Hstep; simpl.
  - exact H0.
  - apply IH.
    + apply Hstep; [left; reflexivity | exact H0].
    + intros acc y Hy. apply Hstep. right. exact Hy.
Qed.

Lemma eqb_true (a b : str) : Py.eqb a b = true <-> a = b.
Proof.
  unfold Py.eqb. destruct (list_eq_dec ascii_dec a b); split; congruence.
Qed.

(** What a group holds after [add_part]. *)
Lemma add_part_In (m t : str) (groups : groups_dict) (k : str)
      (parts : list str) :
  In (k, parts) (add_part m t groups) ->
  In (k, parts) groups \/
  (k = m /\ (parts = [t] \/
             exists parts0, In (k, parts0) groups /\ parts = parts0 ++ [t])).
Proof.
  induction groups as [|[key ps] groups IH]; cbn [add_part]; intro H.
  - destruct H as [H|[]]. injection H as <- <-. right. split; auto.
  - destruct (Py.eqb m key) eqn:E.
    + apply eqb_true in E. subst key. destruct H as [H|H].
      * injection H as <- <-. right. split; [reflexivity|]. right.
        exists ps. split; [left; reflexivity | reflexivity].
      * left. right. exact H.
    + destruct H as [H|H].
      * left. left. exact H.
      * destruct (IH H) as [H'|(-> & [->|(p0 & Hp0 & ->)])].
        -- left. right. exact H'.
        -- right. split; [reflexivity|]. left. reflexivity.
        -- right. split; [reflexivity|]. right. exists p0.
           split; [right; exact Hp0 | reflexivity].
Qed.

Lemma add_part_keys (m t : str) (groups : groups_dict) :
  map fst (add_part m t groups) =
  if has_key m groups then map fst groups else map fst groups ++ [m].
Proof.
  induction groups as [|[key ps] groups IH]; cbn [add_part]; [reflexivity|].
  unfold has_key. cbn [existsb fst].
  destruct (Py.eqb m key) eqn:E; cbn [orb map fst]; [reflexivity|].
  rewrite IH. unfold has_key. destruct (existsb _ groups); reflexivity.
Qed.

Lemma has_key_false (m : str) (groups : groups_dict) :
  has_key m groups = false -> ~ In m (map fst groups).
Proof.
  unfold has_key. intros H Hin. apply in_map_iff in Hin.
  destruct Hin as ([k ps] & <- & Hin).
  assert (E : existsb (fun kv => Py.eqb k (fst kv)) groups = true).
  { apply existsb_exists. exists (k, ps). split; [exact Hin|].
    apply eqb_true. reflexivity. }
  cbn [fst] in H. congruence.
Qed.

Lemma multi_part_groups_sound (A : list str) :
  groups_sound A (multi_part_groups A).
Proof.
  unfold multi_part_groups.
  apply fold_left_invariant.
  - split; [constructor | intros k parts []].
  - intros groups [i t] Hin (Hnd & Hall).
    apply (enumerate_In ([] : str)) in Hin. destruct Hin as (Hi & Ht).
    destruct (matches_re Pat.part_re t) eqn:Ep; [|split; assumption].
    destruct ((0 <? i) &&
              negb (matches_re Pat.part_prefix_re (nth (i - 1) A [])))
      eqn:Ec; [|split; assumption].
    apply andb_true_iff in Ec. destruct Ec as (Ei & Epre).
    apply Nat.ltb_lt in Ei. apply negb_true_iff in Epre.
    assert (Hadj : exists j, S j < length A /\
                             nth j A [] = nth (i - 1) A [] /\
                             nth (S j) A [] = t).
    { exists (i - 1). replace (S (i - 1)) with i by lia. auto. }
    split.
    + rewrite add_part_keys.
      destruct (has_key (nth (i - 1) A []) groups) eqn:Ek; [exact Hnd|].
      apply has_key_false in Ek.
      apply NoDup_rev in Hnd.
      rewrite <- (rev_involutive (map fst groups ++ _)).
      apply NoDup_rev. rewrite rev_app_distr. cbn [rev app].
      constructor; [rewrite <- in_rev; exact Ek | exact Hnd].
    + intros k parts Hk. apply add_part_In in Hk.
      destruct Hk as [Hk|(-> & [->|(p0 & Hp0 & ->)])].
      * apply Hall, Hk.
      * split; [discriminate|]. split; [exact Epre|].
        intros p [<-|[]]. split; [exact Ep | exact Hadj].
      * destruct (Hall _ _ Hp0) as (_ & _ & Hparts).
        split; [destruct p0; discriminate|]. split; [exact Epre|].
        intros p Hp. apply in_app_iff in Hp. destruct Hp as [Hp|[<-|[]]].
        -- apply Hparts, Hp.
        -- split; [exact Ep | exact Hadj].
Qed.

(** X8. The groups of the consolidation.  The main titles are pairwise
    distinct and none of them begins with "Part" or "Movement"; every group
    has at least one part; every part is a "Part N" or "Movement N" entry
    that stands in the list immediately after its main title. *)
Theorem groups_hold_adjacent_parts (A : list str) :
  NoDup (map fst (multi_part_groups A)) /\
  forall k parts, In (k, parts) (multi_part_groups A) ->
    parts <> [] /\
    matches_re Pat.part_prefix_re k = false /\
    forall p, In p parts ->
      matches_re Pat.part_re p = true /\
      exists i, S i < length A /\ nth i A [] = k /\ nth (S i) A [] = p.
Proof. exact (multi_part_groups_sound A). Qed.

Lemma multi_part_groups_none (A : list str) :
  forallb (fun t => negb (matches_re Pat.part_re t)) A = true ->
  multi_part_groups A = [].
Proof.
  intro H. rewrite forallb_forall in H. unfold multi_part_groups.
  apply fold_left_invariant with (P := fun g : groups_dict => g = []);
    [reflexivity|].
  intros groups [i t] Hin ->.
  apply (enumerate_In ([] : str)) in Hin. destruct Hin as (Hi & Ht).
  assert (Hp : matches_re Pat.part_re t = false).
  { apply negb_true_iff, H. rewrite <- Ht. apply nth_In, Hi. }
  rewrite Hp. reflexivity.
Qed.

Lemma processed_without_groups (A : list str) :
  multi_part_groups A = [] -> processed_metadata_tracks A = A.
Proof.
  intro H. unfold processed_metadata_tracks. rewrite H. cbn [map].
  rewrite app_nil_r.
  assert (E : filter (fun track : str =>
                        negb (has_key track []) &&
                        negb (existsb (fun kv : str * list str =>
                                         Py.mem track (snd kv)) []))
                     A = A).
  { apply forallb_filter_id. apply forallb_forall. reflexivity. }
  rewrite E. destruct A; reflexivity.
Qed.

(** X9. A list without "Part N" or "Movement N" entries forms no group, and
    a list that forms no group is compared as it is: the consolidated list
    is the list itself and no bonus applies. *)
Theorem no_parts_no_consolidation ratio (A B : list str) :
  (forallb (fun t => negb (matches_re Pat.part_re t)) A = true ->
   multi_part_groups A = []) /\
  (multi_part_groups A = [] ->
   processed_metadata_tracks A = A /\
   (A <> [] -> B <> [] ->
    calculate_track_similarity ratio A B = raw_percentage ratio A B)).
Proof.
  split; [apply multi_part_groups_none|].
  intro H. split; [apply processed_without_groups, H|].
  intros HA HB. rewrite (calculate_unfold ratio HA HB), H. reflexivity.
Qed.

(** ** The normaliser, again *)


Lemma lower_upper_char (c : ascii) :
  Py.lower_char (upper_char c) = Py.lower_char c.
Proof. destruct c as [[] [] [] [] [] [] [] []]; reflexivity. Qed.

Lemma lower_lower_char (c : ascii) :
  Py.lower_char (Py.lower_char c) = Py.lower_char c.
Proof. destruct c as [[] [] [] [] [] [] [] []]; reflexivity. Qed.

Lemma normalize_track_lower (x y : str) :
  Py.lower x = Py.lower y -> normalize_track x = normalize_track y.
Proof. intro H. unfold normalize_track. rewrite H. reflexivity. Qed.


(** X11. The normal form does not depend on the case of the letters. *)
Theorem normalize_track_ignores_case (x : str) :
  normalize_track (upper x) = normalize_track x /\
  normalize_track (Py.lower x) = normalize_track x.
Proof.
  split; apply normalize_track_lower; unfold Py.lower, upper;
    rewrite map_map; apply map_ext; intro c;
    [apply lower_upper_char | apply lower_lower_char].
Qed.

(** ** The comparison of [main] *)

Section DriverFacts.
Variable ratio : str -> str -> Q.

Lemma driver_best_track_fst (B : list str) (t : str) :
  fst (driver_best_track ratio B t) = driver_best ratio B t.
Proof.
  unfold driver_best_track, driver_best.
  generalize (@None str). generalize 0%Q.
  induction B as [|c B IH]; intros b tr; cbn [fold_left fst]; [reflexivity|].
  destruct (Qltb b (driver_similarity ratio t c)); apply IH.
Qed.

Lemma count_fold (P : str -> bool) (l : list str) : forall n,
  fold_left (fun matching t => if P t then matching + 1 else matching) l n
  = n + length (filter P l).
Proof.
  induction l as [|t l IH]; intro n; cbn [fold_left filter].
  - cbn [length]. lia.
  - rewrite IH. destruct (P t); cbn [length]; lia.
Qed.

(** The loop of [main] and the loop of the scorer hold the same best
    similarity and the same catalogue title at every step. *)
Lemma driver_scan (t : str) (B : list str) : forall l pre b j f tr,
  B = pre ++ l ->
  (j = (-1)%Z /\ tr = None \/
   exists i, j = Z.of_nat i /\ i < length pre /\ tr = Some (nth i B [])) ->
  let st := scan_from (title_similarity ratio (normalize_track t))
                      (length pre) (b, j, f) (map normalize_track l) in
  let dr := fold_left
              (fun st oclc_track =>
                 let similarity := driver_similarity ratio t oclc_track in
                 if Qltb (fst st) similarity
                 then (similarity, Some oclc_track) else st)
              l (b, tr) in
  fst dr = fst (fst st) /\
  (snd (fst st) = (-1)%Z /\ snd dr = None \/
   exists i, snd (fst st) = Z.of_nat i /\ i < length B /\
             snd dr = Some (nth i B [])).
Proof.
  induction l as [|c l IH]; intros pre b j f tr HB Hrel; cbn zeta.
  - cbn [map fold_left fst snd]. unfold scan_from. cbn.
    split; [reflexivity|]. rewrite HB, app_nil_r.
    destruct Hrel as [H|(i & H1 & H2 & H3)]; [left; exact H|].
    right. exists i. rewrite HB, app_nil_r in H3. auto.
  - cbn [map fold_left]. rewrite scan_from_cons.
    unfold candidate_step. cbn [fst].
    assert (Ed : driver_similarity ratio t c
                 = fst (title_similarity ratio (normalize_track t)
                                         (normalize_track c)))
      by reflexivity.
    rewrite Ed. clear Ed.
    destruct (title_similarity ratio (normalize_track t) (normalize_track c))
      as [s r] eqn:Es. cbn [fst].
    assert (HB' : B = (pre ++ [c]) ++ l) by (rewrite <- app_assoc; exact HB).
    assert (Hlen : length (pre ++ [c]) = S (length pre)).
    { rewrite length_app. simpl. lia. }
    destruct (Qltb b s).
    + specialize (IH (pre ++ [c]) s (Z.of_nat (length pre)) (f || r)
                     (Some c) HB').
      rewrite Hlen in IH. apply IH.
      right. exists (length pre). split; [reflexivity|]. split; [lia|].
      rewrite HB, app_nth2, Nat.sub_diag by lia. reflexivity.
    + specialize (IH (pre ++ [c]) b j (f || r) tr HB').
      rewrite Hlen in IH. apply IH.
      destruct Hrel as [H|(i & H1 & H2 & H3)]; [left; exact H|].
      right. exists i. split; [exact H1|]. split; [lia | exact H3].
Qed.

Lemma driver_best_track_scorer (t : str) (B : list str) :
  reads_as_multi_part (normalize_track t) = false ->
  let r := find_best ratio (normalize_track t) (map normalize_track B) in
  fst (driver_best_track ratio B t) = best_match r /\
  (best_match_index r = (-1)%Z /\ snd (driver_best_track ratio B t) = None \/
   exists i, best_match_index r = Z.of_nat i /\ i < length B /\
             snd (driver_best_track ratio B t) = Some (nth i B [])).
Proof.
  intro Hm. cbn zeta. rewrite find_best_plain by exact Hm.
  cbn [best_match best_match_index]. rewrite scan_candidates_eq.
  apply (@driver_scan t B B [] 0%Q (-1)%Z false None eq_refl).
  left. split; reflexivity.
Qed.
End DriverFacts.

Lemma matching_tracks_count ratio (A B : list str) :
  matching_tracks ratio A B
  = length (filter note_status (comparison_note ratio A B)).
Proof.
  unfold matching_tracks, comparison_note, enumerate.
  rewrite count_fold. cbn [Nat.add].
  rewrite <- (combine_seq_snd A 0) at 1.
  generalize (combine (seq 0 (length A)) A). intro l.
  induction l as [|[i t] l IH]; [reflexivity|]. cbn [map filter fst snd].
  rewrite <- driver_best_track_fst.
  destruct (driver_best_track ratio B t) as [b tr].
  cbn [fst snd note_status].
  destruct (Qle_bool (8 # 10) b); cbn [length]; rewrite IH; reflexivity.
Qed.

(** X12. The two loops of [main] agree: the note has one line per metadata
    track, in order and numbered from 1; a line is ticked exactly when its
    score reaches 0.8; and [matching_tracks] is the number of ticked lines,
    at most the number of metadata tracks. *)
Theorem note_agrees_with_matching_tracks ratio (A B : list str) :
  map note_track (comparison_note ratio A B) = A /\
  map note_position (comparison_note ratio A B) = seq 1 (length A) /\
  map note_score (comparison_note ratio A B) = map (driver_best ratio B) A /\
  (forall line, In line (comparison_note ratio A B) ->
                note_status line = Qle_bool (8 # 10) (note_score line)) /\
  matching_tracks ratio A B
  = length (filter note_status (comparison_note ratio A B)) /\
  matching_tracks ratio A B <= length A.
Proof.
  assert (Hline : forall it : nat * str,
    let line := (fun it : nat * str =>
                   let '(i, meta_track) := it in
                   let '(best_match, best_match_track) :=
                     driver_best_track ratio B meta_track in
                   NoteLine (i + 1) meta_track (Qle_bool (8 # 10) best_match)
                            best_match_track best_match) it in
    note_track line = snd it /\ note_position line = S (fst it) /\
    note_score line = driver_best ratio B (snd it) /\
    note_status line = Qle_bool (8 # 10) (driver_best ratio B (snd it))).
  { intros [i t]. cbn zeta. cbn [fst snd]. rewrite <- driver_best_track_fst.
    destruct (driver_best_track ratio B t) as [b tr]. cbn.
    repeat split. lia. }
  unfold comparison_note, enumerate.
  split; [|split; [|split; [|split; [|split]]]].
  - rewrite map_map. erewrite map_ext; [apply combine_seq_snd|].
    intro it. apply Hline.
  - rewrite map_map.
    assert (E : map (fun it : nat * str => S (fst it))
                    (combine (seq 0 (length A)) A) = seq 1 (length A)).
    { rewrite <- (map_map fst S), combine_seq_fst, seq_shift. reflexivity. }
    rewrite <- E. apply map_ext. intro it. apply Hline.
  - rewrite map_map. rewrite <- (combine_seq_snd A 0) at 3.
    rewrite map_map. apply map_ext. intro it. apply Hline.
  - intros line Hin. apply in_map_iff in Hin. destruct Hin as (it & <- & _).
    destruct (Hline it) as (_ & _ & -> & ->). reflexivity.
  - apply matching_tracks_count.
  - unfold matching_tracks. rewrite count_fold. cbn [Nat.add].
    apply filter_length_le.
Qed.

(** X13. [main] and the scorer agree on a list that forms no multi-part
    group and holds no title whose normal form reads as a synthetic entry:
    their lines carry the same titles, scores, ticks and catalogue
    counterparts, and [matching_tracks] is the number of ticked lines of
    the scorer's report. *)
Theorem note_agrees_with_report ratio (A B : list str) :
  A <> [] -> B <> [] ->
  multi_part_groups A = [] ->
  forallb (fun t => negb (reads_as_multi_part (normalize_track t))) A = true ->
  map (fun l => (note_position l, note_track l, note_status l,
                 note_match l, note_score l))
      (comparison_note ratio A B)
  = map (fun m => (position m, orig_track m, ticked (symbol m),
                   counterpart m, score m))
        (matched_tracks ratio A B) /\
  matching_tracks ratio A B
  = length (filter (fun m => ticked (symbol m)) (matched_tracks ratio A B)).
Proof.
  intros HA HB Hg Hm. rewrite forallb_forall in Hm.
  assert (Hmap :
    map (fun l => (note_position l, note_track l, note_status l,
                   note_match l, note_score l))
        (comparison_note ratio A B)
    = map (fun m => (position m, orig_track m, ticked (symbol m),
                     counterpart m, score m))
          (matched_tracks ratio A B)).
  { rewrite (matched_tracks_eq ratio HA HB), (processed_without_groups _ Hg).
    unfold comparison_note. rewrite !map_map. apply map_ext_in.
    intros [i t] Hin. apply (enumerate_In ([] : str)) in Hin.
    destruct Hin as (Hi & Ht).
    assert (Hr : reads_as_multi_part (normalize_track t) = false).
    { apply negb_true_iff, Hm. rewrite <- Ht. apply nth_In, Hi. }
    pose proof (driver_best_track_scorer ratio t B Hr) as (Hb & Htr).
    pose proof (find_best_spec ratio (normalize_track t)
                  (map normalize_track B)) as Hspec.
    cbn [fst snd].
    set (r := find_best ratio (normalize_track t) (map normalize_track B))
      in *.
    destruct (driver_best_track ratio B t) as [b tr]. cbn [fst snd] in Hb, Htr.
    subst b. unfold report_line.
    destruct Htr as [(Hj & ->)|(i' & Hj & Hi' & ->)].
    - destruct Hspec as [(_ & Hz & _)|(i' & _ & Hj' & _)]; [|lia].
      rewrite Hz, Hj. reflexivity.
    - rewrite Hj, Nat2Z.id.
      assert (Ez : (0 <=? Z.of_nat i')%Z = true) by (apply Z.leb_le; lia).
      rewrite Ez.
      destruct (Qle_bool (8 # 10) (best_match r)); cbn; [|reflexivity].
      destruct (is_part_match r); [reflexivity|].
      destruct (is_substring_match r); reflexivity. }
  split; [exact Hmap|].
  rewrite matching_tracks_count.
  assert (E : forall (X Y : Type) (f : X -> nat * str * bool * option str * Q)
                     (g : Y -> nat * str * bool * option str * Q)
                     (l : list X) (l' : list Y),
             map f l = map g l' ->
             length (filter (fun x => snd (fst (fst (f x)))) l)
             = length (filter (fun y => snd (fst (fst (g y)))) l')).
  { intros X Y f g l. induction l as [|x l IH]; intros [|y l'] H;
      try discriminate; [reflexivity|].
    cbn [map] in H. injection H as Hx Hl. cbn [filter]. rewrite Hx.
    destruct (snd (fst (fst (g y)))); cbn [length];
      rewrite (IH _ Hl); reflexivity. }
  exact (E _ _ _ _ _ _ Hmap).
Qed.

Lemma note_agrees_with_report_witness :
  map (fun l => (note_position l, note_track l, note_status l,
                 note_match l, note_score l))
      (comparison_note Difflib.ratio
         [py "Love Song"; py "Blue"] [py "A Love Song"; py "Green"])
  = map (fun m => (position m, orig_track m, ticked (symbol m),
                   counterpart m, score m))
        (matched_tracks Difflib.ratio
           [py "Love Song"; py "Blue"] [py "A Love Song"; py "Green"]) /\
  matching_tracks Difflib.ratio
    [py "Love Song"; py "Blue"] [py "A Love Song"; py "Green"]
  = length (filter (fun m => ticked (symbol m))
              (matched_tracks Difflib.ratio
                 [py "Love Song"; py "Blue"] [py "A Love Song"; py "Green"])).
Proof.
  apply note_agrees_with_report.
  - discriminate.
  - discriminate.
  - vm_compute. reflexivity.
  - vm_compute. reflexivity.
Defined.

(** ** The extractors *)

(** *** Texts on which no pattern matches *)

Section Unmatched.
Variable Q : ascii -> Prop.

Lemma rep_lazy_none (R : Type) p (k : str -> option R) :
  (forall t, Forall Q t -> k t = None) ->
  forall s, Forall Q s -> Re.rep_lazy p s k = None.
Proof.
  intros Hk s. induction s as [|c s IH]; intro Hs; simpl.
  - rewrite Hk by constructor. reflexivity.
  - rewrite (Hk _ Hs). inversion Hs; subst.
    destruct (p c); [apply IH; assumption | reflexivity].
Qed.

(** A pattern fails on a text of [Q]-characters when its continuation fails
    on every such text. *)
Lemma rmatch_none (R : Type) (r : Re.re) : forall s caps
    (k : str -> list str -> option R),
  (forall t caps', Forall Q t -> k t caps' = None) ->
  Forall Q s -> Re.rmatch r s caps k = None.
Proof.
  induction r as [|p|g p|r1 IH1 r2 IH2|r1 IH1 r2 IH2|r1 IH1|];
    intros s caps k Hk Hs; cbn [Re.rmatch].
  - apply Hk, Hs.
  - destruct s as [|c s]; [reflexivity|]. inversion Hs; subst.
    destruct (p c); [apply Hk; assumption | reflexivity].
  - destruct g.
    + apply rep_greedy_none with (Q := Q); [|exact Hs].
      intros t Ht. apply Hk, Ht.
    + apply rep_lazy_none; [|exact Hs]. intros t Ht. apply Hk, Ht.
  - apply IH1; [|exact Hs]. intros t caps' Ht. apply IH2; assumption.
  - rewrite IH1 by assumption. apply IH2; assumption.
  - apply IH1; [|exact Hs]. intros t caps' Ht. apply Hk, Ht.
  - destruct s as [|c [|d s]]; [apply Hk, Hs | | reflexivity].
    destruct (Ascii.eqb c Re.newline); [apply Hk, Hs | reflexivity].
Qed.

Lemma seq_none (R : Type) (r1 r2 : Re.re) (s : str) (caps : list str)
      (k : str -> list str -> option R) :
  (forall t caps', Forall Q t -> Re.rmatch r2 t caps' k = None) ->
  Forall Q s -> Re.rmatch (Re.Seq r1 r2) s caps k = None.
Proof. intros H Hs. cbn [Re.rmatch]. apply rmatch_none; assumption. Qed.

Lemma search_none (r : Re.re) :
  (forall t, Forall Q t -> Re.match_here r t = None) ->
  forall s, Forall Q s -> Re.search r s = None.
Proof.
  intros Hr s. induction s as [|c s IH]; intro Hs; cbn [Re.search];
    unfold Re.match_; rewrite (Hr _ Hs); [reflexivity|].
  inversion Hs; subst. apply IH. assumption.
Qed.

Lemma finditer_none (r : Re.re) :
  (forall t, Forall Q t -> Re.match_here r t = None) ->
  forall s, Forall Q s -> Re.finditer r s = [].
Proof.
  intros Hr s. unfold Re.finditer.
  induction s as [|c s IH]; intro Hs; cbn [Re.finditer_from]; [reflexivity|].
  rewrite (Hr _ Hs). inversion Hs; subst. apply IH. assumption.
Qed.

Lemma findall1_none (r : Re.re) :
  (forall t, Forall Q t -> Re.match_here r t = None) ->
  forall s, Forall Q s -> Re.findall1 r s = [].
Proof.
  intros Hr s Hs. unfold Re.findall1. rewrite (finditer_none r Hr Hs).
  reflexivity.
Qed.
End Unmatched.

(** A literal fails on a text that lacks one of its characters. *)
Lemma lit_none (R : Type) (x : ascii) (p : str) : forall s caps
    (k : str -> list str -> option R),
  In x p -> Forall (fun c => Ascii.eqb x c = false) s ->
  Re.rmatch (Re.Lit p) s caps k = None.
Proof.
  induction p as [|c p IH]; intros s caps k Hin Hs; [destruct Hin|].
  cbn [Re.Lit Re.rmatch]. destruct s as [|d s]; [reflexivity|].
  inversion Hs; subst. unfold Re.ch.
  destruct (Ascii.eqb c d) eqn:E; [|reflexivity].
  destruct Hin as [->|Hin]; [congruence|]. apply IH; assumption.
Qed.




Lemma contains_colon (s : str) :
  Py.contains (py ":") s = false -> Forall no_colon s.
Proof.
  induction s as [|c s IH]; intro H; [constructor|].
  cbn [Py.contains] in H. apply orb_false_iff in H. destruct H as [H1 H2].
  constructor; [|apply IH, H2].
  unfold no_colon. change (py ":") with [":"%char] in H1.
  cbn [Py.startswith] in H1.
  replace (Py.startswith s []) with true in H1 by (destruct s; reflexivity).
  rewrite andb_true_r in H1. exact H1.
Qed.

Ltac has_colon := cbn; repeat (first [left; reflexivity | right]).

Lemma content_section_no_colon (t : str) :
  Forall no_colon t -> Re.match_here Pat.content_section_re t = None.
Proof.
  intro Ht. unfold Re.match_here, Pat.content_section_re.
  cbn [Pat.cat fold_right Re.rmatch].
  apply lit_none with (x := ":"%char); [has_colon | exact Ht].
Qed.

Lemma track_patterns_no_colon :
  Forall (fun r => forall t, Forall no_colon t -> Re.match_here r t = None)
         Pat.track_patterns.
Proof.
  unfold Pat.track_patterns.
  repeat constructor; intros t Ht; unfold Re.match_here;
    cbn [Pat.cat Pat.number_title app fold_right Re.rmatch];
    (apply lit_none with (x := ":"%char); [has_colon | exact Ht]).
Qed.

Lemma track_section_no_colon (t : str) :
  Forall no_colon t -> Re.match_here Pat.track_section_re t = None.
Proof.
  intro Ht. unfold Re.match_here, Pat.track_section_re.
  cbn [Pat.cat fold_right].
  apply seq_none with (Q := no_colon); [|exact Ht].
  intros u caps' Hu. cbn [Re.rmatch].
  apply lit_none with (x := ":"%char); [has_colon | exact Hu].
Qed.

Lemma extract_metadata_no_colon (s : str) :
  Py.contains (py ":") s = false -> extract_tracks_from_metadata s = [].
Proof.
  intro H. apply contains_colon in H.
  assert (H1 : structured_tracks s = []).
  { unfold structured_tracks.
    rewrite (search_none Pat.content_section_re content_section_no_colon H).
    reflexivity. }
  assert (H2 : cascade_tracks s [] = []).
  { unfold cascade_tracks.
    apply fold_left_invariant with (P := fun tr : list str => tr = []);
      [reflexivity|].
    intros acc p Hp ->. cbn [length Nat.ltb Nat.leb].
    pose proof track_patterns_no_colon as Hall.
    rewrite Forall_forall in Hall.
    rewrite (findall1_none p (Hall p Hp) H). reflexivity. }
  assert (H3 : unstructured_tracks s [] = []).
  { unfold unstructured_tracks.
    rewrite (findall1_none Pat.track_section_re track_section_no_colon H).
    reflexivity. }
  unfold extract_tracks_from_metadata. rewrite H1. cbn [length Nat.ltb Nat.leb].
  rewrite H2. cbn [length Nat.ltb Nat.leb]. rewrite H3. reflexivity.
Qed.

(** X14. A metadata text without a colon yields no track: every pattern of
    the extractor asks for one. *)
Theorem metadata_without_colon_has_no_tracks (metadata_str : str) :
  Py.contains (py ":") metadata_str = false ->
  extract_tracks_from_metadata metadata_str = [].
Proof. apply extract_metadata_no_colon. Qed.

Lemma metadata_without_colon_has_no_tracks_witness :
  extract_tracks_from_metadata (py "An album of twelve songs, no listing")
  = [].
Proof.
  apply metadata_without_colon_has_no_tracks. vm_compute. reflexivity.
Defined.



(** *** What the metadata extractor never returns *)

Lemma truthy_nonempty (t : str) : truthy t = true -> nonempty t.
Proof. destruct t; [discriminate | intros _; discriminate]. Qed.

Lemma append_new_nonempty (tracks : list str) (cleaned : str) :
  Forall nonempty tracks -> Forall nonempty (append_new tracks cleaned).
Proof.
  intro H. unfold append_new.
  destruct (truthy cleaned) eqn:E; cbn [andb]; [|exact H].
  destruct (not_sentinel cleaned); [|exact H].
  destruct (negb (Py.mem cleaned tracks)); [|exact H].
  apply Forall_app. split; [exact H|]. constructor; [|constructor].
  apply truthy_nonempty, E.
Qed.

Lemma fold_append_new_nonempty (A : Type) (f : A -> str) (l : list A)
      (tracks : list str) :
  Forall nonempty tracks ->
  Forall nonempty
    (fold_left (fun tracks x => append_new tracks (f x)) l tracks).
Proof.
  intro H. apply fold_left_invariant; [exact H|].
  intros acc x _ Hacc. apply append_new_nonempty, Hacc.
Qed.

Lemma structured_tracks_nonempty (s : str) :
  Forall nonempty (structured_tracks s).
Proof.
  unfold structured_tracks.
  destruct (Re.search Pat.content_section_re s) as [m|]; [|constructor].
  cbn zeta.
  match goal with
  | |- Forall _ (if truthy ?first then _ else _) =>
      assert (H1 : Forall nonempty first)
  end.
  { apply fold_left_invariant; [constructor|].
    intros acc x _ Hacc.
    destruct (truthy (Re.group x 1)); cbn [andb]; [|exact Hacc].
    destruct (truthy (Py.strip (Re.group x 1))) eqn:E; cbn [andb];
      [|exact Hacc].
    destruct (not_sentinel (Re.group x 1)); [|exact Hacc].
    apply Forall_app. split; [exact Hacc|]. constructor; [|constructor].
    apply truthy_nonempty, E. }
  match goal with
  | |- Forall _ (if truthy ?first then _ else _) =>
      destruct (truthy first); [exact H1|]
  end.
  apply fold_left_invariant; [exact H1|].
  intros acc x _ Hacc. cbn zeta.
  match goal with
  | |- Forall _ (if truthy ?t && _ then _ else _) =>
      destruct (truthy t) eqn:E; cbn [andb]; [|exact Hacc];
      destruct (not_sentinel t); [|exact Hacc]
  end.
  apply Forall_app. split; [exact Hacc|]. constructor; [|constructor].
  apply truthy_nonempty, E.
Qed.

Lemma cascade_tracks_nonempty (s : str) (tracks : list str) :
  Forall nonempty tracks -> Forall nonempty (cascade_tracks s tracks).
Proof.
  intro H. unfold cascade_tracks. apply fold_left_invariant; [exact H|].
  intros acc p _ Hacc. destruct (length acc <? 3); [|exact Hacc].
  apply fold_append_new_nonempty with
    (f := fun title => Py.rstrip_char "," (Py.strip title)).
  exact Hacc.
Qed.

Lemma unstructured_tracks_nonempty (s : str) (tracks : list str) :
  Forall nonempty tracks -> Forall nonempty (unstructured_tracks s tracks).
Proof.
  intro H. unfold unstructured_tracks. apply fold_left_invariant; [exact H|].
  intros acc sec _ Hacc.
  apply fold_append_new_nonempty with (f := Py.strip). exact Hacc.
Qed.

(** X16. The metadata extractor never returns an empty title, a field name
    ("title", "duration", "not visible", ...), a title that holds "note" or
    begins with "contains", or a title of more than eight words. *)
Theorem metadata_titles_are_filtered (metadata_str t : str) :
  In t (extract_tracks_from_metadata metadata_str) ->
  t <> [] /\
  is_field_name t = false /\
  Py.contains (py "note") (Py.lower t) = false /\
  Py.startswith (Py.lower t) (py "contains") = false /\
  length (Py.split t) <= 8.
Proof.
  unfold extract_tracks_from_metadata. intro H.
  apply filter_In in H. destruct H as (H & Hn).
  apply filter_In in H. destruct H as (H & Hf).
  apply negb_true_iff in Hn, Hf. unfold looks_like_note in Hn.
  apply orb_false_iff in Hn. destruct Hn as (Hn & Hw).
  apply orb_false_iff in Hn. destruct Hn as (Hn & Hc).
  apply Nat.ltb_ge in Hw.
  split; [|repeat split; assumption].
  match type of H with
  | In _ ?l => assert (HF : Forall nonempty l)
  end; [|rewrite Forall_forall in HF; exact (HF t H)].
  clear H.
  set (t1 := if length (structured_tracks metadata_str) <? 3
             then cascade_tracks metadata_str (structured_tracks metadata_str)
             else structured_tracks metadata_str).
  assert (H1 : Forall nonempty t1).
  { subst t1. destruct (length (structured_tracks metadata_str) <? 3);
      [apply cascade_tracks_nonempty|]; apply structured_tracks_nonempty. }
  destruct (length t1 <? 3); [apply unstructured_tracks_nonempty|]; exact H1.
Qed.

Lemma metadata_titles_are_filtered_witness :
  py "Alpha" <> [] /\
  is_field_name (py "Alpha") = false /\
  Py.contains (py "note") (Py.lower (py "Alpha")) = false /\
  Py.startswith (Py.lower (py "Alpha")) (py "contains") = false /\
  length (Py.split (py "Alpha")) <= 8.
Proof.
  apply (@metadata_titles_are_filtered
           (sample_metadata [py "Alpha"; py "Beta"]) (py "Alpha")).
  vm_compute. left. reflexivity.
Defined.

(** ** Titles with equal normal forms *)

(** X17. A metadata entry whose normal form is that of a catalogue title,
    and does not read as a synthetic entry, has best similarity 1 and is
    credited in full (for a ratio that is at most 1 and is 1 on two empty
    strings). *)
Theorem equal_normal_forms_score_1 ratio (t : str) (B : list str) :
  (forall a b, (ratio a b <= 1)%Q) ->
  (ratio [] [] == 1)%Q ->
  reads_as_multi_part (normalize_track t) = false ->
  In (normalize_track t) (map normalize_track B) ->
  (best_of ratio B t == 1)%Q /\ (credited ratio B t == 1)%Q.
Proof.
  intros Hle He Hm Hin. split.
  - apply best_of_self; assumption.
  - apply credited_self; assumption.
Qed.

Lemma equal_normal_forms_score_1_witness :
  (best_of Difflib.ratio [py "Blue"; py "wind, the"] (py "The Wind") == 1)%Q /\
  (credited Difflib.ratio [py "Blue"; py "wind, the"] (py "The Wind") == 1)%Q.
Proof.
  apply equal_normal_forms_score_1.
  - exact ratio_le_1.
  - vm_compute. reflexivity.
  - vm_compute. reflexivity.
  - apply mem_true. vm_compute. reflexivity.
Defined.

(** ** The length of the consolidated list *)

Section Weaken.
Variable R S : Type.

Lemma rep_greedy_weaken p (k : str -> option R) (k' : str -> option S) :
  (forall t, k t <> None -> k' t <> None) ->
  forall s, Re.rep_greedy p s k <> None -> Re.rep_greedy p s k' <> None.
Proof.
  intros Hk s. induction s as [|c s IH]; simpl; [apply Hk|].
  destruct (p c); [|apply Hk].
  destruct (Re.rep_greedy p s k) eqn:E.
  - intros _. destruct (Re.rep_greedy p s k') eqn:E'; [discriminate|].
    exfalso. apply IH; [discriminate | reflexivity].
  - intro H. destruct (Re.rep_greedy p s k'); [discriminate|].
    apply Hk, H.
Qed.

Lemma rep_lazy_weaken p (k : str -> option R) (k' : str -> option S) :
  (forall t, k t <> None -> k' t <> None) ->
  forall s, Re.rep_lazy p s k <> None -> Re.rep_lazy p s k' <> None.
Proof.
  intros Hk s. induction s as [|c s IH]; simpl.
  - destruct (k []) eqn:E; [|congruence]. intros _.
    destruct (k' []) eqn:E'; [discriminate|].
    exfalso. apply (Hk []); [congruence | exact E'].
  - destruct (k (c :: s)) eqn:E.
    + intros _. destruct (k' (c :: s)) eqn:E'; [discriminate|].
      exfalso. apply (Hk (c :: s)); [congruence | exact E'].
    + destruct (p c); [|congruence]. intro H.
      destruct (k' (c :: s)); [discriminate|]. apply IH, H.
Qed.
End Weaken.

(** A match that succeeds goes on succeeding under a continuation that
    succeeds wherever the first one does. *)
Lemma rmatch_weaken (R S : Type) (r : Re.re) : forall s caps
    (k : str -> list str -> option R) (k' : str -> list str -> option S),
  (forall t caps', k t caps' <> None -> k' t caps' <> None) ->
  Re.rmatch r s caps k <> None -> Re.rmatch r s caps k' <> None.
Proof.
  induction r as [|p|g p|r1 IH1 r2 IH2|r1 IH1 r2 IH2|r1 IH1|];
    intros s caps k k' Hk; cbn [Re.rmatch].
  - apply Hk.
  - destruct s as [|c s]; [congruence|]. destruct (p c); [apply Hk|congruence].
  - destruct g; [apply rep_greedy_weaken | apply rep_lazy_weaken];
      intro t; apply Hk.
  - apply IH1. intros t caps'. apply IH2, Hk.
  - destruct (Re.rmatch r1 s caps k) eqn:E.
    + intros _. destruct (Re.rmatch r1 s caps k') eqn:E'; [discriminate|].
      exfalso. apply (IH1 s caps k k' Hk); [congruence | exact E'].
    + intro H. destruct (Re.rmatch r1 s caps k'); [discriminate|].
      apply (IH2 s caps k k' Hk), H.
  - apply IH1. intros t caps'. apply Hk.
  - destruct s as [|c [|d s]]; [apply Hk | | congruence].
    destruct (Ascii.eqb c Re.newline); [apply Hk | congruence].
Qed.

(** A "Part N" entry begins with "Part" or "Movement". *)
Lemma part_has_prefix (p : str) :
  matches_re Pat.part_re p = true -> matches_re Pat.part_prefix_re p = true.
Proof.
  unfold matches_re, Re.match_, Re.match_here, Pat.part_re.
  cbn [Pat.cat fold_right]. intro H.
  assert (H1 : Re.rmatch
                 (Re.Seq Pat.part_prefix_re
                    (Re.Seq (Re.Star Pat.sp)
                       (Re.Seq
                          (Re.Grp
                             (Re.Alt (Re.Plus Pat.digit)
                                (Re.Plus (Re.one_of (py "IVXivx")))))
                          (Re.Seq Re.Eos Re.Eps)))) p []
                 (fun s' caps => Some (length p - length s', caps)) <> None).
  { intro E. rewrite E in H. discriminate H. }
  change (Re.rmatch (Re.Seq Pat.part_prefix_re ?rest) p [] ?k)
    with (Re.rmatch Pat.part_prefix_re p []
            (fun s' caps' => Re.rmatch rest s' caps' k)) in H1.
  apply rmatch_weaken
    with (k' := fun (s' : str) (caps : list str) =>
                  Some (length p - length s', caps)) in H1.
  - destruct (Re.rmatch Pat.part_prefix_re p []
                (fun s' caps => Some (length p - length s', caps)))
      as [[n caps]|]; [reflexivity | congruence].
  - intros; discriminate.
Qed.

Lemma has_key_true (k : str) (parts : list str) (groups : groups_dict) :
  In (k, parts) groups -> has_key k groups = true.
Proof.
  intro H. unfold has_key. apply existsb_exists. exists (k, parts).
  split; [exact H | apply eqb_true; reflexivity].
Qed.

(** X18. Consolidation never lengthens the list, and it shortens the list
    when a group forms: every main title and every grouped part leaves the
    standalone entries, and one entry per main title comes in. *)
Theorem consolidation_shortens (A : list str) :
  length (processed_metadata_tracks A) <= length A /\
  (multi_part_groups A <> [] ->
   length (processed_metadata_tracks A) < length A).
Proof.
  destruct (multi_part_groups A) as [|[k0 parts0] gs] eqn:Eg.
  - rewrite (processed_without_groups _ Eg). split; [lia | congruence].
  - assert (Hlt : length (processed_metadata_tracks A) < length A);
      [|split; [lia | intros _; exact Hlt]].
    destruct (multi_part_groups_sound A) as (Hnd & Hall).
    unfold processed_metadata_tracks. rewrite Eg in *.
    set (groups := (k0, parts0) :: gs) in *.
    set (keep := fun track : str =>
                   negb (has_key track groups) &&
                   negb (existsb (fun kv : str * list str =>
                                    Py.mem track (snd kv)) groups)).
    assert (Ht : truthy (filter keep A ++
                         map (fun kv => synthetic_entry (fst kv) (snd kv))
                             groups) = true).
    { destruct (filter keep A); reflexivity. }
    rewrite Ht, length_app, length_map.
    rewrite <- (filter_length keep A).
    apply Nat.add_lt_mono_l.
    destruct (Hall k0 parts0 (or_introl eq_refl)) as (Hne & Hpre0 & Hparts0).
    destruct parts0 as [|p0 parts0]; [congruence|].
    destruct (Hparts0 p0 (or_introl eq_refl)) as (Hp0 & i0 & Hi0 & _ & Hn0).
    assert (Hlen : length (p0 :: map fst groups)
                   <= length (filter (fun x => negb (keep x)) A)).
    { apply NoDup_incl_length.
      - constructor; [|exact Hnd].
        intro Hin. apply in_map_iff in Hin.
        destruct Hin as ([k ps] & Hk & Hin). cbn [fst] in Hk. subst k.
        destruct (Hall _ _ Hin) as (_ & Hpre & _).
        apply part_has_prefix in Hp0. congruence.
      - intros x [<-|Hx]; apply filter_In.
        + split; [rewrite <- Hn0; apply nth_In; lia|].
          apply negb_true_iff. unfold keep. apply andb_false_iff. right.
          apply negb_false_iff. apply existsb_exists.
          exists (k0, p0 :: parts0). split; [left; reflexivity|].
          apply mem_true. left. reflexivity.
        + apply in_map_iff in Hx. destruct Hx as ([k ps] & Hk & Hin).
          cbn [fst] in Hk. subst k.
          destruct (Hall _ _ Hin) as (Hps & _ & Hparts).
          destruct ps as [|q ps]; [congruence|].
          destruct (Hparts q (or_introl eq_refl)) as (_ & i & Hi & Hk & _).
          split; [rewrite <- Hk; apply nth_In; lia|].
          apply negb_true_iff. unfold keep. apply andb_false_iff. left.
          apply negb_false_iff. eapply has_key_true. exact Hin. }
    cbn [length] in Hlen. rewrite length_map in Hlen. lia.
Qed.
